(** * The strategic battlefield simulation (nidanidewodawode.py)

    A shallow embedding of the simulation engine: the agent record, the
    threat assessment of [decide], the three vector policies, the radius
    detection, and the tick of [Battlefield.time_step].

    Modelling conventions.
    - Python and numpy floats are read as real numbers ([R]); rounding,
      infinities and NaN are outside the model.
    - A numpy array of shape (2,) is a pair of reals.
    - The process-global numpy random state is an explicit stream of unit
      samples [draws : nat -> R] together with a cursor that every draw
      advances; the cursor is the state of the monad [M].
    - A division whose divisor is zero is an exceptional outcome of [M]:
      [ZeroDivisionError] for Python's float division, [FloatingPointError]
      for a numpy array division (what numpy raises under
      [np.seterr(all='raise')]; by default it only warns).
    - The module-level [aggression_threshold], which the slider callback
      rebinds between frames, is the explicit argument [tau].

    Of the display code the trail bookkeeping of [visualize_battlefield] is
    modelled (the dictionary [trail_history]); the matplotlib calls are not.
    The engine of maodun_in_categorytheory.py is modelled in [Maodun]. *)

From Stdlib Require Import Reals Lra List ZArith Lia Bool FinFun.
From Stdlib Require String.
From ExtLib Require Import Structures.Monad Structures.MonadState Structures.MonadExc.
From ExtLib Require Import Data.Monads.StateMonad Data.Monads.EitherMonad.
Import ListNotations.
Import MonadNotation.
Local Open Scope monad_scope.
Local Open Scope R_scope.
#[local] Existing Instance Monad_stateT.

(** ** Reals with boolean tests *)

Definition Rltb (x y : R) : bool := if Rlt_dec x y then true else false.
Definition Rleb (x y : R) : bool := if Rle_dec x y then true else false.
Definition Reqb (x y : R) : bool := if Req_dec_T x y then true else false.

(** ** Arrays of shape (2,) *)

Definition vec : Type := (R * R)%type.

(** [np.zeros(2)] *)
Definition zeros2 : vec := (0, 0).

Definition vadd (u v : vec) : vec := (fst u + fst v, snd u + snd v).
Definition vsub (u v : vec) : vec := (fst u - fst v, snd u - snd v).
Definition vscale (v : vec) (k : R) : vec := (fst v * k, snd v * k).

(** [np.linalg.norm] on a 2-vector. *)
Definition linalg_norm (v : vec) : R := sqrt (fst v * fst v + snd v * snd v).

(** [np.clip(v, lo, hi)], that is [minimum(maximum(v, lo), hi)]. *)
Definition clip (v : vec) (lo hi : R) : vec :=
  (Rmin (Rmax (fst v) lo) hi, Rmin (Rmax (snd v) lo) hi).

(** ** Outcomes and the random source *)

Inductive exception : Type :=
| ZeroDivisionError
| FloatingPointError.

(** A computation reads the cursor of the random stream, may advance it, and
    returns a value or raises. *)
Definition M : Type -> Type := stateT nat (sum exception).

Definition run {A : Type} (m : M A) (cursor : nat) : exception + A * nat :=
  runStateT m cursor.

(** Python's [a / b] on floats. *)
Definition py_div (a b : R) : M R :=
  if Reqb b 0 then raise ZeroDivisionError else ret (a / b).

(** numpy's [v / d] for an array [v] and a scalar [d]. *)
Definition np_div (v : vec) (d : R) : M vec :=
  if Reqb d 0 then raise FloatingPointError else ret (fst v / d, snd v / d).

(** [np.mean(ps, axis=0)]: the component-wise sum divided by the count. *)
Definition np_mean (ps : list vec) : M vec :=
  np_div (fold_left vadd ps zeros2) (INR (length ps)).

Definition chaos_factor : R := 0.3.

Inductive Status : Type := attack | maneuver | retreat.
Inductive Strategy : Type := active | passive.

Record StrategicAgent : Type := mkAgent {
  agent_id : Z;
  power : R;
  position : vec;
  strategy_type : Strategy;
  status : Status;
  vector : vec
}.

Definition set_power (a : StrategicAgent) (p : R) : StrategicAgent :=
  mkAgent (agent_id a) p (position a) (strategy_type a) (status a) (vector a).
Definition set_position (a : StrategicAgent) (p : vec) : StrategicAgent :=
  mkAgent (agent_id a) (power a) p (strategy_type a) (status a) (vector a).
Definition set_status (a : StrategicAgent) (s : Status) : StrategicAgent :=
  mkAgent (agent_id a) (power a) (position a) (strategy_type a) s (vector a).
Definition set_vector (a : StrategicAgent) (v : vec) : StrategicAgent :=
  mkAgent (agent_id a) (power a) (position a) (strategy_type a) (status a) v.

Record Battlefield : Type := mkBattlefield {
  agents : list StrategicAgent;
  time_step_count : Z
}.

(** [sum(op.power for op in opponents)]: starts from 0, adds left to right. *)
Definition sum_power (opponents : list StrategicAgent) : R :=
  fold_left Rplus (map power opponents) 0.

(** [min(opponents, key=lambda op: op.power)] on a non-empty list
    [first :: others]: the earliest agent of least power. *)
Definition min_by_power (first : StrategicAgent) (others : list StrategicAgent)
  : StrategicAgent :=
  fold_left (fun best op => if Rltb (power op) (power best) then op else best)
            others first.

Section WithRandomSource.

(** The stream of samples of [random_sample()], each meant to lie in [0,1). *)
Variable draws : nat -> R.

Definition random_sample : M R :=
  c <- get ;; put (S c) ;; ret (draws c).

(** [np.random.uniform(lo, hi)] *)
Definition uniform (lo hi : R) : M R :=
  u <- random_sample ;; ret (lo + (hi - lo) * u).

(** [np.random.uniform(lo, hi, 2)] *)
Definition uniform2 (lo hi : R) : M vec :=
  x <- uniform lo hi ;; y <- uniform lo hi ;; ret (x, y).

(** [np.random.rand(2)] *)
Definition rand2 : M vec :=
  x <- random_sample ;; y <- random_sample ;; ret (x, y).

(** [np.random.choice([a, b])]: one sample selects the index. *)
Definition random_choice {A : Type} (a b : A) : M A :=
  u <- random_sample ;; ret (if Rltb u 0.5 then a else b).

(** [StrategicAgent.__init__] *)
Definition StrategicAgent_init (strategy : Strategy) (id : Z) : M StrategicAgent :=
  p <- uniform 0.5 1.5 ;;
  xy <- rand2 ;;
  ret (mkAgent id p (vscale xy 10) strategy maneuver zeros2).

Definition generate_defensive_pattern : M vec :=
  direction <- uniform2 (-1) 1 ;;
  let norm := linalg_norm direction in
  let norm := if Reqb norm 0 then 1 else norm in
  random_jitter <- uniform2 (- chaos_factor / 2) (chaos_factor / 2) ;;
  base <- np_div direction norm ;;
  ret (vadd base random_jitter).

Definition calculate_best_attack_vector (self : StrategicAgent)
           (opponents : list StrategicAgent) : M vec :=
  match opponents with
  | [] => generate_defensive_pattern
  | first :: others =>
      let weakest := min_by_power first others in
      let direction := vsub (position weakest) (position self) in
      let norm := linalg_norm direction in
      let norm := if Reqb norm 0 then 1 else norm in
      random_jitter <- uniform2 (- chaos_factor) chaos_factor ;;
      base <- np_div direction norm ;;
      ret (vadd base random_jitter)
  end.

Definition find_safest_escape_route (self : StrategicAgent)
           (opponents : list StrategicAgent) : M vec :=
  match opponents with
  | [] => generate_defensive_pattern
  | _ :: _ =>
      threat_center <- np_mean (map position opponents) ;;
      let direction := vsub (position self) threat_center in
      let norm := linalg_norm direction in
      let norm := if Reqb norm 0 then 1 else norm in
      random_jitter <- uniform2 (- chaos_factor) chaos_factor ;;
      base <- np_div direction norm ;;
      ret (vadd base random_jitter)
  end.

(** [StrategicAgent.decide]: returns the pair [(status, vector)] together
    with the mutated [self]. *)
Definition decide (tau : R) (self : StrategicAgent)
           (opponents : list StrategicAgent)
  : M ((Status * vec) * StrategicAgent) :=
  self <-
    match opponents with
    | _ :: _ =>
        threat_level <- py_div (sum_power opponents) (power self) ;;
        if Rltb threat_level (1.0 * tau) then
          let self := set_status self attack in
          v <- calculate_best_attack_vector self opponents ;;
          ret (set_vector self v)
        else if Rleb (1.0 * tau) threat_level && Rleb threat_level (1.4 * tau) then
          let self := set_status self maneuver in
          v <- generate_defensive_pattern ;;
          ret (set_vector self v)
        else
          let self := set_status self retreat in
          v <- find_safest_escape_route self opponents ;;
          ret (set_vector self v)
    | [] =>
        let self := set_status self maneuver in
        v <- generate_defensive_pattern ;;
        ret (set_vector self v)
    end ;;
  ret ((status self, vector self), self).

(** [Battlefield._deploy_forces]: the loop over [range(num_agents)], with
    the list built so far as accumulator. *)
Fixpoint deploy_loop (ids : list Z) (agents : list StrategicAgent)
  : M (list StrategicAgent) :=
  match ids with
  | [] => ret agents
  | i :: rest =>
      strategy <- random_choice active passive ;;
      a <- StrategicAgent_init strategy i ;;
      deploy_loop rest (agents ++ [a])
  end.

(** [range(n)] for a Python integer [n]; empty when [n <= 0]. *)
Definition range (n : Z) : list Z := map Z.of_nat (seq 0 (Z.to_nat n)).

Definition _deploy_forces (num_agents : Z) : M (list StrategicAgent) :=
  deploy_loop (range num_agents) [].

(** [Battlefield.__init__] *)
Definition Battlefield_init (num_agents : Z) : M Battlefield :=
  agents <- _deploy_forces num_agents ;;
  ret (mkBattlefield agents 0).

(** [Battlefield._detect_in_radius], over the current agent list. *)
Fixpoint _detect_in_radius (agents : list StrategicAgent)
         (agent : StrategicAgent) (radius : R) : list StrategicAgent :=
  match agents with
  | [] => []
  | other :: rest =>
      let foes := _detect_in_radius rest agent radius in
      if negb (Z.eqb (agent_id other) (agent_id agent)) then
        if Rltb (linalg_norm (vsub (position other) (position agent))) radius
        then other :: foes
        else foes
      else foes
  end.

Definition speed_factor (s : Status) : R :=
  match s with
  | attack => 0.35
  | retreat => 0.3
  | maneuver => 0.25
  end.

Definition _execute_action (agent : StrategicAgent) (vector : vec)
  : M StrategicAgent :=
  chaotic_movement <- uniform2 (-0.05) 0.05 ;;
  let moved := vadd (position agent)
                    (vadd (vscale vector (speed_factor (status agent)))
                          chaotic_movement) in
  ret (set_position agent (clip moved 0 10)).

Definition decay (s : Status) : R :=
  match s with
  | attack => 0.02
  | retreat => 0.015
  | maneuver => 0.005
  end.

Definition _update_power_dynamics (agent : StrategicAgent) : StrategicAgent :=
  set_power agent (Rmax 0.1 (power agent - decay (status agent))).

Definition total_power (agents : list StrategicAgent) : R :=
  fold_left Rplus (map power agents) 0.

Definition _rebalance_strategic_equilibrium (agents : list StrategicAgent)
  : list StrategicAgent :=
  if Rltb (total_power agents) 10 then
    map (fun agent => set_power agent (power agent + 0.03)) agents
  else agents.

(** The body of the [for agent in self.agents] loop of [time_step]; [all]
    is the agent list as it stands when [agent] is reached. *)
Definition agent_step (tau : R) (all : list StrategicAgent)
           (agent : StrategicAgent) : M StrategicAgent :=
  let visible_foes := _detect_in_radius all agent 3.0 in
  r <- decide tau agent visible_foes ;;
  let '((action, vector), agent) := r in
  agent <- _execute_action agent vector ;;
  ret (_update_power_dynamics agent).

(** The loop itself.  Agents are mutated in place, so the agents already
    visited ([done]) are seen in their updated state by the later ones. *)
Fixpoint agents_loop (tau : R) (done todo : list StrategicAgent)
  : M (list StrategicAgent) :=
  match todo with
  | [] => ret done
  | agent :: rest =>
      agent' <- agent_step tau (done ++ agent :: rest) agent ;;
      agents_loop tau (done ++ [agent']) rest
  end.

(** [Battlefield.time_step] *)
Definition time_step (tau : R) (bf : Battlefield) : M Battlefield :=
  agents <- agents_loop tau [] (agents bf) ;;
  let agents := _rebalance_strategic_equilibrium agents in
  ret (mkBattlefield agents (time_step_count bf + 1)).

(** Repeated calls of [time_step], as the animation callback makes them;
    [taus] gives the threshold in force at each call.  The result is the
    trajectory: the battlefield after each tick. *)
Fixpoint simulate (taus : list R) (bf : Battlefield) : M (list Battlefield) :=
  match taus with
  | [] => ret []
  | tau :: later =>
      bf' <- time_step tau bf ;;
      trajectory <- simulate later bf' ;;
      ret (bf' :: trajectory)
  end.

End WithRandomSource.

(** * Vocabulary of the statements

    What the functions above return, written as plain expressions of their
    inputs, and the predicates the theorems are stated with. *)

(** ** Policies and threat assessment *)

(** The pair that [uniform2 lo hi] returns when the cursor is at [c]. *)
Definition pair_at (draws : nat -> R) (lo hi : R) (c : nat) : vec :=
  (lo + (hi - lo) * draws c, lo + (hi - lo) * draws (S c)).

(** The divisor every policy uses: the norm, or 1 when the norm is 0. *)
Definition denominator (direction : vec) : R :=
  let norm := linalg_norm direction in
  if Reqb norm 0 then 1 else norm.

Definition normalized (direction : vec) : vec :=
  (fst direction / denominator direction, snd direction / denominator direction).

(** The centroid that [np.mean] yields on a non-empty list of positions. *)
Definition centroid (ps : list vec) : vec :=
  let s := fold_left vadd ps zeros2 in
  (fst s / INR (length ps), snd s / INR (length ps)).

Definition defensive_direction (draws : nat -> R) (c : nat) : vec :=
  pair_at draws (-1) 1 c.

Definition attack_direction (self first : StrategicAgent)
           (others : list StrategicAgent) : vec :=
  vsub (position (min_by_power first others)) (position self).

Definition escape_direction (self : StrategicAgent)
           (opponents : list StrategicAgent) : vec :=
  vsub (position self) (centroid (map position opponents)).

(** A computation returns (does not raise) from cursor [c]. *)
Definition returns {A : Type} (m : M A) (c : nat) : Prop :=
  exists a c', run m c = inr (a, c').

(** The vectors the three policies produce when the cursor stands at [c]. *)
Definition defensive_vector (draws : nat -> R) (c : nat) : vec :=
  vadd (normalized (defensive_direction draws c))
       (pair_at draws (- chaos_factor / 2) (chaos_factor / 2) (S (S c))).

Definition attack_vector (draws : nat -> R) (self first : StrategicAgent)
           (others : list StrategicAgent) (c : nat) : vec :=
  vadd (normalized (attack_direction self first others))
       (pair_at draws (- chaos_factor) chaos_factor c).

Definition escape_vector (draws : nat -> R) (self : StrategicAgent)
           (opponents : list StrategicAgent) (c : nat) : vec :=
  vadd (normalized (escape_direction self opponents))
       (pair_at draws (- chaos_factor) chaos_factor c).

(** The stance [decide] selects when the threat level is [t]. *)
Definition stance_of (tau t : R) : Status :=
  if Rltb t (1.0 * tau) then attack
  else if Rleb (1.0 * tau) t && Rleb t (1.4 * tau) then maneuver
  else retreat.

(** The vector of the policy that goes with a stance. *)
Definition vector_of (draws : nat -> R) (s : Status) (self : StrategicAgent)
           (opponents : list StrategicAgent) (c : nat) : vec :=
  match opponents with
  | [] => defensive_vector draws c
  | first :: others =>
      match s with
      | attack => attack_vector draws self first others c
      | maneuver => defensive_vector draws c
      | retreat => escape_vector draws self opponents c
      end
  end.

Definition decided (self : StrategicAgent) (s : Status) (v : vec) : StrategicAgent :=
  set_vector (set_status self s) v.

(** ** The tick *)

(** A position inside the closed arena [0,10] x [0,10]. *)
Definition in_arena (p : vec) : Prop :=
  0 <= fst p <= 10 /\ 0 <= snd p <= 10.

(** The agent after its turn, given the stance [s] and vector [v] that
    [decide] chose and the cursor [c1] that [decide] left. *)
Definition after_turn (draws : nat -> R) (agent : StrategicAgent)
           (s : Status) (v : vec) (c1 : nat) : StrategicAgent :=
  _update_power_dynamics
    (set_position (decided agent s v)
       (clip (vadd (position agent)
                   (vadd (vscale v (speed_factor s))
                         (pair_at draws (-0.05) 0.05 c1)))
             0 10)).

(** What a turn does to an agent, whatever was decided. *)
Definition turn_taken (before after : StrategicAgent) : Prop :=
  agent_id after = agent_id before /\
  strategy_type after = strategy_type before /\
  power after = Rmax 0.1 (power before - decay (status after)) /\
  in_arena (position after).

(** The run of the loop, turn by turn: [loop_trace done todo c new c'] says
    that from cursor [c], with [done] already visited, the agents of [todo]
    take their turns in order, become [new], and leave the cursor at [c'].
    Each turn detects over [done ++ agent :: rest], the list as it stands. *)
Inductive loop_trace (draws : nat -> R) (tau : R)
  : list StrategicAgent -> list StrategicAgent -> nat ->
    list StrategicAgent -> nat -> Prop :=
| trace_end done c : loop_trace draws tau done [] c [] c
| trace_turn done agent rest c s v c1 new c' :
    run (decide draws tau agent
           (_detect_in_radius (done ++ agent :: rest) agent 3.0)) c =
      inr ((s, v, decided agent s v), c1) ->
    loop_trace draws tau (done ++ [after_turn draws agent s v c1]) rest
               (S (S c1)) new c' ->
    loop_trace draws tau done (agent :: rest) c
               (after_turn draws agent s v c1 :: new) c'.

Definition bonus (agent : StrategicAgent) : StrategicAgent :=
  set_power agent (power agent + 0.03).

(** The state every agent is in after a tick. *)
Definition agent_ok (a : StrategicAgent) : Prop :=
  0.1 <= power a /\ in_arena (position a).

Definition invariant (bf : Battlefield) : Prop := Forall agent_ok (agents bf).

(** ** Detection, construction, random sources *)

(** The test an agent of the list passes to be a visible rival of [agent]. *)
Definition visible (agent : StrategicAgent) (radius : R)
           (other : StrategicAgent) : bool :=
  negb (Z.eqb (agent_id other) (agent_id agent)) &&
  Rltb (linalg_norm (vsub (position other) (position agent))) radius.

(** The agent that [_deploy_forces] creates for id [i] when the cursor
    stands at [c]: one draw for the strategy, one for the power, two for the
    position. *)
Definition new_agent (draws : nat -> R) (i : Z) (c : nat) : StrategicAgent :=
  mkAgent i
          (0.5 + (1.5 - 0.5) * draws (S c))
          (vscale (draws (S (S c)), draws (S (S (S c)))) 10)
          (if Rltb (draws c) 0.5 then active else passive)
          maneuver zeros2.

Fixpoint new_agents (draws : nat -> R) (ids : list Z) (c : nat)
  : list StrategicAgent :=
  match ids with
  | [] => []
  | i :: rest => new_agent draws i c :: new_agents draws rest (4 + c)
  end.

(** An agent as [StrategicAgent.__init__] leaves it. *)
Definition freshly_made (a : StrategicAgent) : Prop :=
  0.5 <= power a <= 1.5 /\ in_arena (position a) /\
  status a = maneuver /\ vector a = zeros2.

Definition unit_samples (draws : nat -> R) : Prop :=
  forall k, 0 <= draws k < 1.

(** ** A concrete battlefield: two agents one unit apart *)

Definition agent_A : StrategicAgent := mkAgent 0 1.0 (0, 0) active maneuver zeros2.
Definition agent_B : StrategicAgent := mkAgent 1 0.4 (1, 0) passive maneuver zeros2.
(** A third agent standing exactly where [agent_A] stands. *)
Definition agent_C : StrategicAgent := mkAgent 2 0.3 (0, 0) passive maneuver zeros2.
(** A fourth agent at distance exactly 3 from [agent_A]. *)
Definition agent_D : StrategicAgent := mkAgent 3 1.4 (3, 0) active maneuver zeros2.
Definition scenario : Battlefield := mkBattlefield [agent_A; agent_B] 0.

(** The random source whose every sample is 1/2. *)
Definition half_draws : nat -> R := fun _ => 0.5.

(** ** Measures of a tick *)

(** Samples one turn consumes: the policy's draws (four for the defensive
    pattern, two for the others) and the two of [_execute_action]. *)
Definition policy_draws (s : Status) : nat :=
  match s with
  | maneuver => 4
  | _ => 2
  end.

Definition turn_draws (s : Status) : nat := policy_draws s + 2.

Definition draws_used (agents : list StrategicAgent) : nat :=
  fold_right (fun a n => turn_draws (status a) + n)%nat O agents.

(** Two points no further apart than [d] in either coordinate. *)
Definition within (d : R) (p q : vec) : Prop :=
  Rabs (fst q - fst p) <= d /\ Rabs (snd q - snd p) <= d.

Definition vneg (v : vec) : vec := (- fst v, - snd v).

(** ** The trails of the display *)

(** The module-level [trail_history] dictionary: agent id to the list of
    that agent's recent positions. *)
Definition TrailHistory : Type := Z -> option (list vec).

Definition trail_empty : TrailHistory := fun _ => None.

(** [h[id] = trail] *)
Definition trail_set (h : TrailHistory) (id : Z) (trail : list vec) : TrailHistory :=
  fun k => if Z.eqb k id then Some trail else h k.

(** [{agent.agent_id: [agent.position.copy()] for agent in battlefield.agents}] *)
Definition trail_history_init (agents : list StrategicAgent) : TrailHistory :=
  fold_left (fun h agent => trail_set h (agent_id agent) [position agent])
            agents trail_empty.

(** The trail bookkeeping of one agent in [visualize_battlefield]: append
    the position, and drop the oldest entry when more than 30 are held.
    [None] stands for the [KeyError] of a missing id. *)
Definition record_position (h : TrailHistory) (agent : StrategicAgent)
  : option TrailHistory :=
  match h (agent_id agent) with
  | None => None
  | Some trail =>
      let trail := trail ++ [position agent] in
      let trail := if (30 <? length trail)%nat then tl trail else trail in
      Some (trail_set h (agent_id agent) trail)
  end.

(** The [for agent in battlefield.agents] loop of [visualize_battlefield],
    as far as it touches [trail_history]. *)
Fixpoint visualize_battlefield (agents : list StrategicAgent) (h : TrailHistory)
  : option TrailHistory :=
  match agents with
  | [] => Some h
  | agent :: rest =>
      match record_position h agent with
      | None => None
      | Some h' => visualize_battlefield rest h'
      end
  end.

(** The trails after the frames of a run: [animate] calls [time_step] and
    then [visualize_battlefield], frame after frame. *)
Fixpoint replay (trajectory : list Battlefield) (h : TrailHistory)
  : option TrailHistory :=
  match trajectory with
  | [] => Some h
  | bf :: later =>
      match visualize_battlefield (agents bf) h with
      | None => None
      | Some h' => replay later h'
      end
  end.

(** A vector whose two components lie in [-b, b]. *)
Definition in_square (b : R) (v : vec) : Prop :=
  - b <= fst v <= b /\ - b <= snd v <= b.

(** [turn_of draws tau before after]: [after] is [before] after one turn of
    the loop, for some agent list and cursor at which the turn was taken. *)
Definition turn_of (draws : nat -> R) (tau : R)
           (before after : StrategicAgent) : Prop :=
  exists all c s v c1,
    run (decide draws tau before (_detect_in_radius all before 3.0)) c =
      inr ((s, v, decided before s v), c1) /\
    after = after_turn draws before s v c1.

(** [tick_of draws tau before after]: [after] is [before] after a whole
    tick, the turn followed by the correction or by nothing. *)
Definition tick_of (draws : nat -> R) (tau : R)
           (before after : StrategicAgent) : Prop :=
  exists mid, turn_of draws tau before mid /\ (after = mid \/ after = bonus mid).

(** What [record_position] leaves of a trail that has just been appended to. *)
Definition keep_recent (trail : list vec) : list vec :=
  if (30 <? length trail)%nat then tl trail else trail.

(** Every agent of [bf] has a trail in [h], of [Nat.min k 30] entries, the
    last of which is the agent's position. *)
Definition trails_track (h : TrailHistory) (bf : Battlefield) (k : nat) : Prop :=
  forall a, In a (agents bf) ->
            exists trail,
              h (agent_id a) = Some trail /\
              length trail = Nat.min k 30 /\
              last trail zeros2 = position a.

(** * The contradiction dynamics (maodun_in_categorytheory.py)

    The engine that updates the relations of a directed graph by a logistic
    map and picks out the strongest ones.  Of the networkx graph only what
    [DynamicsEngine] uses is kept: the edges with their ['data'] attribute,
    in the iteration order of [graph.edges(data=True)], and the assignment
    [graph[u][v]['data'] = relation].  A [DiGraph] holds at most one edge
    per ordered pair of nodes. *)

Module Maodun.

Inductive ContradictionType : Type :=
| ANTAGONISM
| DEPENDENCE
| TRANSFORMATION.

Record Relation : Type := mkRelation {
  intensity : R;
  type : ContradictionType;
  active : bool
}.

(** An edge [(u, v, data)] as [graph.edges(data=True)] yields it. *)
Definition Edge : Type := (String.string * String.string * Relation)%type.

Definition endpoints (e : Edge) : String.string * String.string := fst e.
Definition data (e : Edge) : Relation := snd e.

Record System : Type := mkSystem {
  graph : list Edge
}.

Record DynamicsEngine : Type := mkEngine {
  system : System;
  chaos_coeff : R
}.

Definition logistic_map (self : DynamicsEngine) (x : R) : R :=
  chaos_coeff self * x * (1 - x).

Definition is_antagonism (t : ContradictionType) : bool :=
  match t with
  | ANTAGONISM => true
  | _ => false
  end.

(** The body of the first loop of [update_relations]: the relation that
    replaces [relation]. *)
Definition new_relation (self : DynamicsEngine) (relation : Relation) : Relation :=
  let new_intensity := logistic_map self (intensity relation) in
  let new_intensity := Rmax 0.0 (Rmin new_intensity 1.0) in
  let new_type :=
    if is_antagonism (type relation) && Rltb 0.9 new_intensity
    then DEPENDENCE
    else type relation in
  let new_active := Rltb 0.1 new_intensity in
  mkRelation new_intensity new_type new_active.

Definition same_endpoints (u v : String.string) (e : Edge) : bool :=
  String.eqb u (fst (endpoints e)) && String.eqb v (snd (endpoints e)).

(** [graph[u][v]['data'] = relation]; [None] is the [KeyError] of an edge
    that does not exist. *)
Fixpoint set_data (g : list Edge) (u v : String.string) (relation : Relation)
  : option (list Edge) :=
  match g with
  | [] => None
  | e :: rest =>
      if same_endpoints u v e then Some ((u, v, relation) :: rest)
      else match set_data rest u v relation with
           | None => None
           | Some rest' => Some (e :: rest')
           end
  end.

(** The triple [(u, v, new_relation)] appended to [updates] for an edge. *)
Definition updated_edge (self : DynamicsEngine) (e : Edge) : Edge :=
  (endpoints e, new_relation self (data e)).

(** [update_relations]: first the list [updates] is computed from the
    current edges, then each update is assigned. *)
Definition update_relations (self : DynamicsEngine) : option DynamicsEngine :=
  let updates := map (updated_edge self) (graph (system self)) in
  match
    fold_left (fun g upd =>
                 match g with
                 | None => None
                 | Some g => set_data g (fst (fst upd)) (snd (fst upd)) (snd upd)
                 end)
              updates (Some (graph (system self)))
  with
  | None => None
  | Some g => Some (mkEngine (mkSystem g) (chaos_coeff self))
  end.

(** Sorting, as [np.percentile] does before it interpolates. *)
Fixpoint insert_sorted (x : R) (l : list R) : list R :=
  match l with
  | [] => [x]
  | y :: rest => if Rleb x y then x :: l else y :: insert_sorted x rest
  end.

Definition sort (l : list R) : list R := fold_right insert_sorted [] l.

(** [np.percentile(a, q)] for an integer [q] between 0 and 100, default
    (linear) interpolation: the virtual index is q/100 * (n - 1); the value
    lies between the sorted entries around it. *)
Definition percentile (a : list R) (q : nat) : R :=
  let sorted := sort a in
  let n := length a in
  let scaled := (q * (n - 1))%nat in
  let previous := (scaled / 100)%nat in
  let next := Nat.min (previous + 1) (n - 1) in
  let gamma := INR (scaled mod 100) / 100 in
  nth previous sorted 0 + gamma * (nth next sorted 0 - nth previous sorted 0).

Definition focus_main_contradictions (self : DynamicsEngine)
  : list (String.string * String.string) :=
  let intensities := map (fun e => intensity (data e)) (graph (system self)) in
  match intensities with
  | [] => []
  | _ :: _ =>
      let threshold := percentile intensities 97 in
      map endpoints
          (filter (fun e => Rleb threshold (intensity (data e)))
                  (graph (system self)))
  end.

(** [tick]: the engine after the update, and the main contradictions. *)
Definition tick (self : DynamicsEngine)
  : option (DynamicsEngine * list (String.string * String.string)) :=
  match update_relations self with
  | None => None
  | Some self' => Some (self', focus_main_contradictions self')
  end.

(** [n] calls of [update_relations]. *)
Fixpoint update_relations_n (n : nat) (self : DynamicsEngine)
  : option DynamicsEngine :=
  match n with
  | O => Some self
  | S n' =>
      match update_relations self with
      | None => None
      | Some self' => update_relations_n n' self'
      end
  end.

(** The relation that [n] updates make of [relation]. *)
Fixpoint new_relation_n (n : nat) (self : DynamicsEngine) (relation : Relation)
  : Relation :=
  match n with
  | O => relation
  | S n' => new_relation_n n' self (new_relation self relation)
  end.

(** The invariant of a [DiGraph]: one edge per ordered pair. *)
Definition simple (g : list Edge) : Prop := NoDup (map endpoints g).

(** The orbit of the plain logistic map, without clamping. *)
Fixpoint logistic_orbit (n : nat) (self : DynamicsEngine) (x : R) : R :=
  match n with
  | O => x
  | S n' => logistic_orbit n' self (logistic_map self x)
  end.

(** A small system: three objects, three relations. *)
Import String.

Definition example_graph : list Edge :=
  [ ("Obj1"%string, "Obj2"%string, mkRelation 0.5 ANTAGONISM true);
    ("Obj2"%string, "Obj1"%string, mkRelation 1.0 TRANSFORMATION true);
    ("Obj1"%string, "Obj3"%string, mkRelation 0.2 DEPENDENCE true) ].

Definition example_engine : DynamicsEngine :=
  mkEngine (mkSystem example_graph) 3.7.

(** The endpoints of its strongest relation. *)
Definition example_strongest : String.string * String.string :=
  ("Obj2"%string, "Obj1"%string).

End Maodun.

(** ** The process-wide state and the events of a session

    What the program keeps in module-level variables: the state of numpy's
    global generator (its position in the stream of samples), the
    [aggression_threshold] that [decide] reads, and the [battlefield].  A
    session is a sequence of events: the animation timer calls [animate],
    the slider calls [update_threshold].  Of [animate] the call of
    [time_step] is kept; the redraw reads the battlefield and writes only
    [trail_history]. *)

Record World : Type := mkWorld {
  np_random : nat;
  aggression_threshold : R;
  battlefield : Battlefield
}.

Inductive Event : Type :=
| Frame
| Slide (val : R).

(** [update_threshold(val)]: rebinds the global threshold. *)
Definition update_threshold (val : R) (w : World) : World :=
  mkWorld (np_random w) val (battlefield w).

(** [animate(i)]: one [time_step] on the global battlefield, drawing from
    the global generator and reading the global threshold. *)
Definition animate (draws : nat -> R) (w : World) : exception + World :=
  match run (time_step draws (aggression_threshold w) (battlefield w))
            (np_random w) with
  | inl e => inl e
  | inr (bf, cursor) => inr (mkWorld cursor (aggression_threshold w) bf)
  end.

(** A session: the events in order.  The result is the trajectory, that is
    the battlefield as it stands after each frame, and the final state. *)
Fixpoint play (draws : nat -> R) (events : list Event) (w : World)
  : exception + list Battlefield * World :=
  match events with
  | [] => inr ([], w)
  | Slide val :: later => play draws later (update_threshold val w)
  | Frame :: later =>
      match animate draws w with
      | inl e => inl e
      | inr w' =>
          match play draws later w' with
          | inl e => inl e
          | inr (trajectory, final) => inr (battlefield w' :: trajectory, final)
          end
      end
  end.

Fixpoint frames (events : list Event) : nat :=
  match events with
  | [] => O
  | Frame :: later => S (frames later)
  | Slide _ :: later => frames later
  end.

(** Two generators deliver the same next [n] samples: the first read from
    its position [c1] on, the second from its position [c2] on.  Nothing is
    asked of the samples before these positions or beyond the [n]. *)
Definition agree (d1 : nat -> R) (c1 : nat) (d2 : nat -> R) (c2 : nat)
           (n : nat) : Prop :=
  forall k, (k < n)%nat -> d1 (k + c1)%nat = d2 (k + c2)%nat.

(** Two outcomes of a computation started at cursors [c1] and [c2]: the same
    exception, or the same value after the same number of samples, at most
    [n]. *)
Definition outcomes_agree {A : Type} (n c1 c2 : nat)
           (o1 o2 : exception + A * nat) : Prop :=
  match o1, o2 with
  | inl e1, inl e2 => e1 = e2
  | inr (a1, c1'), inr (a2, c2') =>
      a1 = a2 /\
      exists k, (k <= n)%nat /\ c1' = (k + c1)%nat /\ c2' = (k + c2)%nat
  | _, _ => False
  end.

(** [successive draws bf trajectory]: every battlefield of the trajectory
    is what [time_step] returned on the one before it, the first on [bf]. *)
Inductive successive (draws : nat -> R) : Battlefield -> list Battlefield -> Prop :=
| successive_end bf : successive draws bf []
| successive_step bf tau c bf' c' rest :
    run (time_step draws tau bf) c = inr (bf', c') ->
    successive draws bf' rest ->
    successive draws bf (bf' :: rest).

(** A generator that has already delivered ten samples of another kind and
    whose samples change again after the next twenty-four. *)
Definition used_generator : nat -> R :=
  fun k => if (k <? 10)%nat then 0.9 else if (k <? 34)%nat then 0.5 else 0.1.

Definition scenario_world : World := mkWorld 0 1.0 scenario.
Definition scenario_world_later : World := mkWorld 10 1.0 scenario.

(** * Lemmas *)

(** ** Running computations: the equations of [M] *)

Lemma run_ret {A : Type} (a : A) (c : nat) : run (ret a) c = inr (a, c).
Proof. reflexivity. Qed.

Lemma run_bind {A B : Type} (m : M A) (k : A -> M B) (c : nat) :
  run (bind m k) c =
  match run m c with
  | inl e => inl e
  | inr (a, c') => run (k a) c'
  end.
Proof.
  unfold run. cbn. destruct (runStateT m c) as [e | [a c']]; reflexivity.
Qed.

Lemma run_bind_returns {A B : Type} (m : M A) (k : A -> M B) {c a c'} :
  run m c = inr (a, c') -> run (bind m k) c = run (k a) c'.
Proof. intros H. rewrite run_bind, H. reflexivity. Qed.

Lemma run_raise {A : Type} (e : exception) (c : nat) :
  run (raise e : M A) c = inl e.
Proof. reflexivity. Qed.

Lemma run_random_sample draws c :
  run (random_sample draws) c = inr (draws c, S c).
Proof. reflexivity. Qed.

Lemma run_uniform draws lo hi c :
  run (uniform draws lo hi) c = inr (lo + (hi - lo) * draws c, S c).
Proof. reflexivity. Qed.

Lemma run_uniform2 draws lo hi c :
  run (uniform2 draws lo hi) c = inr (pair_at draws lo hi c, S (S c)).
Proof. reflexivity. Qed.

Lemma run_rand2 draws c :
  run (rand2 draws) c = inr ((draws c, draws (S c)), S (S c)).
Proof. reflexivity. Qed.

(** ** Divisions and the zero-norm guard *)

Lemma Reqb_true_iff x y : Reqb x y = true <-> x = y.
Proof.
  unfold Reqb. destruct (Req_dec_T x y); split; intros; congruence.
Qed.

Lemma Reqb_false_iff x y : Reqb x y = false <-> x <> y.
Proof.
  unfold Reqb. destruct (Req_dec_T x y); split; intros; congruence.
Qed.

Lemma Rltb_true_iff x y : Rltb x y = true <-> x < y.
Proof.
  unfold Rltb. destruct (Rlt_dec x y); split; intros; congruence.
Qed.

Lemma Rltb_false_iff x y : Rltb x y = false <-> y <= x.
Proof.
  unfold Rltb. destruct (Rlt_dec x y); split; intros; try congruence; lra.
Qed.

Lemma Rleb_true_iff x y : Rleb x y = true <-> x <= y.
Proof.
  unfold Rleb. destruct (Rle_dec x y); split; intros; congruence.
Qed.

Lemma Rleb_false_iff x y : Rleb x y = false <-> y < x.
Proof.
  unfold Rleb. destruct (Rle_dec x y); split; intros; try congruence; lra.
Qed.

Lemma run_py_div a b c : b <> 0 -> run (py_div a b) c = inr (a / b, c).
Proof.
  intros Hb. unfold py_div.
  apply Reqb_false_iff in Hb. rewrite Hb. reflexivity.
Qed.

Lemma run_py_div_zero a c : run (py_div a 0) c = inl ZeroDivisionError.
Proof.
  unfold py_div. rewrite (proj2 (Reqb_true_iff 0 0) eq_refl). reflexivity.
Qed.

Lemma run_np_div v d c :
  d <> 0 -> run (np_div v d) c = inr ((fst v / d, snd v / d), c).
Proof.
  intros Hd. unfold np_div.
  apply Reqb_false_iff in Hd. rewrite Hd. reflexivity.
Qed.

Lemma denominator_nonzero direction : denominator direction <> 0.
Proof.
  unfold denominator. cbv zeta.
  destruct (Reqb (linalg_norm direction) 0) eqn:E.
  - lra.
  - now apply Reqb_false_iff.
Qed.

Lemma denominator_zero_norm direction :
  linalg_norm direction = 0 -> denominator direction = 1.
Proof.
  intros H. unfold denominator. cbv zeta.
  now rewrite (proj2 (Reqb_true_iff _ _) H).
Qed.

Lemma linalg_norm_nonneg v : 0 <= linalg_norm v.
Proof. apply sqrt_pos. Qed.

Lemma linalg_norm_zero v : linalg_norm v = 0 -> v = zeros2.
Proof.
  destruct v as [x y]. unfold linalg_norm, zeros2. cbn [fst snd]. intros H.
  apply sqrt_eq_0 in H; [| nra].
  assert (x = 0) by nra. assert (y = 0) by nra. subst. reflexivity.
Qed.

Lemma linalg_norm_zeros2 : linalg_norm zeros2 = 0.
Proof.
  unfold linalg_norm, zeros2. cbn [fst snd].
  replace (0 * 0 + 0 * 0) with 0 by lra. apply sqrt_0.
Qed.

Lemma normalized_zero_norm direction :
  linalg_norm direction = 0 ->
  direction = zeros2 /\ normalized direction = direction.
Proof.
  intros H. pose proof (linalg_norm_zero _ H) as Hz. split; [exact Hz |].
  unfold normalized. rewrite (denominator_zero_norm _ H).
  destruct direction as [x y]. cbn [fst snd]. f_equal; lra.
Qed.

Lemma INR_length_cons_nonzero {A : Type} (x : A) (l : list A) :
  INR (length (x :: l)) <> 0.
Proof.
  cbn [length]. rewrite S_INR. pose proof (pos_INR (length l)). lra.
Qed.

Lemma run_np_mean p ps c :
  run (np_mean (p :: ps)) c = inr (centroid (p :: ps), c).
Proof.
  unfold np_mean. rewrite run_np_div; [reflexivity |].
  apply INR_length_cons_nonzero.
Qed.

(** *** What each policy returns *)

Lemma run_generate_defensive_pattern draws c :
  run (generate_defensive_pattern draws) c =
  inr (vadd (normalized (defensive_direction draws c))
            (pair_at draws (- chaos_factor / 2) (chaos_factor / 2) (S (S c))),
       S (S (S (S c)))).
Proof.
  unfold generate_defensive_pattern.
  rewrite (run_bind_returns _ _ (run_uniform2 draws (-1) 1 c)). cbv zeta.
  rewrite (run_bind_returns _ _ (run_uniform2 draws _ _ (S (S c)))).
  rewrite (run_bind_returns _ _
             (run_np_div _ _ _ (denominator_nonzero (pair_at draws (-1) 1 c)))).
  reflexivity.
Qed.

Lemma run_calculate_best_attack_vector draws self first others c :
  run (calculate_best_attack_vector draws self (first :: others)) c =
  inr (vadd (normalized (attack_direction self first others))
            (pair_at draws (- chaos_factor) chaos_factor c),
       S (S c)).
Proof.
  unfold calculate_best_attack_vector. cbv zeta.
  rewrite (run_bind_returns _ _ (run_uniform2 draws _ _ c)).
  rewrite (run_bind_returns _ _
             (run_np_div _ _ _
                (denominator_nonzero (attack_direction self first others)))).
  reflexivity.
Qed.

Lemma run_find_safest_escape_route draws self first others c :
  run (find_safest_escape_route draws self (first :: others)) c =
  inr (vadd (normalized (escape_direction self (first :: others)))
            (pair_at draws (- chaos_factor) chaos_factor c),
       S (S c)).
Proof.
  unfold find_safest_escape_route, escape_direction. cbn [map].
  rewrite (run_bind_returns _ _ (run_np_mean _ _ c)). cbv zeta.
  rewrite (run_bind_returns _ _ (run_uniform2 draws _ _ c)).
  rewrite (run_bind_returns _ _
             (run_np_div _ _ _
                (denominator_nonzero
                   (vsub (position self)
                         (centroid (position first :: map position others)))))).
  reflexivity.
Qed.

Lemma policies_return draws self opponents c :
  returns (generate_defensive_pattern draws) c /\
  returns (calculate_best_attack_vector draws self opponents) c /\
  returns (find_safest_escape_route draws self opponents) c.
Proof.
  unfold returns. split; [| split].
  - eexists _, _. apply run_generate_defensive_pattern.
  - destruct opponents as [| first others].
    + eexists _, _. apply run_generate_defensive_pattern.
    + eexists _, _. apply run_calculate_best_attack_vector.
  - destruct opponents as [| first others].
    + eexists _, _. apply run_generate_defensive_pattern.
    + eexists _, _. apply run_find_safest_escape_route.
Qed.

(** ** Threat assessment *)

Ltac run_with lem := rewrite run_bind; rewrite lem; cbv beta iota zeta.

Lemma fold_left_Rplus_acc (l : list R) (acc : R) :
  fold_left Rplus l acc = acc + fold_left Rplus l 0.
Proof.
  revert acc. induction l as [| x l IH]; intros acc; cbn [fold_left].
  - lra.
  - rewrite (IH (acc + x)), (IH (0 + x)). lra.
Qed.

Lemma sum_power_cons a l : sum_power (a :: l) = power a + sum_power l.
Proof.
  unfold sum_power. cbn [map fold_left].
  rewrite fold_left_Rplus_acc. lra.
Qed.

Lemma sum_power_nonneg l :
  Forall (fun op => 0 < power op) l -> 0 <= sum_power l.
Proof.
  induction 1 as [| a l Ha _ IH].
  - unfold sum_power. cbn. lra.
  - rewrite sum_power_cons. lra.
Qed.

Lemma sum_power_pos a l :
  Forall (fun op => 0 < power op) (a :: l) -> 0 < sum_power (a :: l).
Proof.
  intros H. inversion H as [| ? ? Ha Hl]; subst.
  rewrite sum_power_cons. pose proof (sum_power_nonneg _ Hl). lra.
Qed.

Lemma run_decide_no_opponents draws tau self c :
  run (decide draws tau self []) c =
  inr ((maneuver, defensive_vector draws c,
        decided self maneuver (defensive_vector draws c)),
       S (S (S (S c)))).
Proof.
  unfold decide. rewrite run_bind. run_with run_generate_defensive_pattern.
  reflexivity.
Qed.

Lemma run_decide_opponents draws tau self first others c :
  power self <> 0 ->
  let opponents := first :: others in
  let s := stance_of tau (sum_power opponents / power self) in
  exists c',
    run (decide draws tau self opponents) c =
    inr ((s, vector_of draws s self opponents c,
          decided self s (vector_of draws s self opponents c)), c').
Proof.
  intros Hp opponents s. subst s opponents.
  unfold decide, stance_of. rewrite run_bind.
  run_with (run_py_div (sum_power (first :: others)) _ c Hp).
  destruct (Rltb _ (1.0 * tau)).
  - run_with run_calculate_best_attack_vector. eexists. reflexivity.
  - destruct (Rleb (1.0 * tau) _ && Rleb _ (1.4 * tau)).
    + run_with run_generate_defensive_pattern. eexists. reflexivity.
    + run_with run_find_safest_escape_route. eexists. reflexivity.
Qed.

Lemma decide_returns draws tau self opponents c :
  opponents = [] \/ power self <> 0 ->
  exists s v c',
    run (decide draws tau self opponents) c = inr ((s, v, decided self s v), c').
Proof.
  intros H. destruct opponents as [| first others].
  - eexists _, _, _. apply run_decide_no_opponents.
  - destruct H as [H | H]; [discriminate |].
    destruct (run_decide_opponents draws tau self first others c H) as [c' Hrun].
    eexists _, _, _. exact Hrun.
Qed.

(** ** One agent's turn within a tick *)

Lemma clip_in_arena v : in_arena (clip v 0 10).
Proof.
  unfold in_arena, clip, Rmin, Rmax. cbn [fst snd].
  repeat destruct (Rle_dec _ _); lra.
Qed.

Lemma run_execute_action draws agent v c :
  run (_execute_action draws agent v) c =
  inr (set_position agent
         (clip (vadd (position agent)
                     (vadd (vscale v (speed_factor (status agent)))
                           (pair_at draws (-0.05) 0.05 c)))
               0 10),
       S (S c)).
Proof.
  unfold _execute_action. run_with run_uniform2. reflexivity.
Qed.

Lemma run_agent_step draws tau all agent c s v c1 :
  run (decide draws tau agent (_detect_in_radius all agent 3.0)) c =
    inr ((s, v, decided agent s v), c1) ->
  run (agent_step draws tau all agent) c =
    inr (after_turn draws agent s v c1, S (S c1)).
Proof.
  intros Hd. unfold agent_step. cbv zeta.
  run_with Hd. run_with run_execute_action. reflexivity.
Qed.

Lemma agent_step_returns draws tau all agent c :
  _detect_in_radius all agent 3.0 = [] \/ power agent <> 0 ->
  exists s v c1,
    run (decide draws tau agent (_detect_in_radius all agent 3.0)) c =
      inr ((s, v, decided agent s v), c1) /\
    run (agent_step draws tau all agent) c =
      inr (after_turn draws agent s v c1, S (S c1)).
Proof.
  intros H.
  destruct (decide_returns draws tau agent _ c H) as (s & v & c1 & Hd).
  exists s, v, c1. split; [exact Hd |].
  now apply run_agent_step.
Qed.

Lemma agent_step_raises draws tau all agent c :
  _detect_in_radius all agent 3.0 <> [] -> power agent = 0 ->
  run (agent_step draws tau all agent) c = inl ZeroDivisionError.
Proof.
  intros Hfoes Hp. unfold agent_step. cbv zeta.
  destruct (_detect_in_radius all agent 3.0) as [| first others];
    [congruence |].
  unfold decide. rewrite !run_bind. rewrite Hp, run_py_div_zero. reflexivity.
Qed.

Lemma after_turn_taken draws agent s v c1 :
  turn_taken agent (after_turn draws agent s v c1) /\
  status (after_turn draws agent s v c1) = s /\
  vector (after_turn draws agent s v c1) = v.
Proof.
  unfold turn_taken, after_turn, _update_power_dynamics, decided.
  cbn [agent_id strategy_type power position status vector
       set_power set_position set_status set_vector].
  repeat split; try reflexivity; apply clip_in_arena.
Qed.

Lemma agent_step_inv draws tau all agent c agent' c' :
  run (agent_step draws tau all agent) c = inr (agent', c') ->
  exists s v c1,
    run (decide draws tau agent (_detect_in_radius all agent 3.0)) c =
      inr ((s, v, decided agent s v), c1) /\
    agent' = after_turn draws agent s v c1 /\ c' = S (S c1).
Proof.
  intros Hrun.
  assert (Hcase : _detect_in_radius all agent 3.0 = [] \/ power agent <> 0).
  { destruct (Req_dec_T (power agent) 0) as [Hz | Hnz]; [| now right].
    destruct (_detect_in_radius all agent 3.0) as [| first others] eqn:Hfoes;
      [now left |].
    rewrite agent_step_raises in Hrun; [discriminate | | exact Hz].
    rewrite Hfoes. discriminate. }
  destruct (agent_step_returns draws tau all agent c Hcase)
    as (s & v & c1 & Hd & Hstep).
  rewrite Hstep in Hrun. inversion Hrun; subst.
  exists s, v, c1. auto.
Qed.

(** ** The per-agent loop *)

Lemma run_agents_loop_cons draws tau done agent rest c :
  run (agents_loop draws tau done (agent :: rest)) c =
  match run (agent_step draws tau (done ++ agent :: rest) agent) c with
  | inl e => inl e
  | inr (agent', c') => run (agents_loop draws tau (done ++ [agent']) rest) c'
  end.
Proof. cbn [agents_loop]. apply run_bind. Qed.

Lemma agents_loop_inv draws tau todo :
  forall done c out c',
    run (agents_loop draws tau done todo) c = inr (out, c') ->
    exists new, out = done ++ new /\ loop_trace draws tau done todo c new c'.
Proof.
  induction todo as [| agent rest IH]; intros done c out c' Hrun.
  - cbn [agents_loop] in Hrun. rewrite run_ret in Hrun. inversion Hrun; subst.
    exists []. rewrite app_nil_r. split; [reflexivity | constructor].
  - rewrite run_agents_loop_cons in Hrun.
    destruct (run (agent_step draws tau (done ++ agent :: rest) agent) c)
      as [e | [agent' c1]] eqn:Hstep; [discriminate |].
    apply agent_step_inv in Hstep.
    destruct Hstep as (s & v & c0 & Hd & -> & ->).
    destruct (IH _ _ _ _ Hrun) as (new & Hout & Hnew).
    exists (after_turn draws agent s v c0 :: new). split.
    + rewrite Hout, <- app_assoc. reflexivity.
    + econstructor; eassumption.
Qed.

Lemma loop_trace_run draws tau done todo c new c' :
  loop_trace draws tau done todo c new c' ->
  run (agents_loop draws tau done todo) c = inr (done ++ new, c').
Proof.
  induction 1 as [done c | done agent rest c s v c1 new c' Hd _ IH].
  - cbn [agents_loop]. rewrite run_ret, app_nil_r. reflexivity.
  - rewrite run_agents_loop_cons, (run_agent_step _ _ _ _ _ _ _ _ Hd), IH.
    rewrite <- app_assoc. reflexivity.
Qed.

Lemma loop_trace_turns draws tau done todo c new c' :
  loop_trace draws tau done todo c new c' -> Forall2 turn_taken todo new.
Proof.
  induction 1; constructor; [apply after_turn_taken | assumption].
Qed.

Lemma agents_loop_returns draws tau todo :
  Forall (fun a => power a <> 0) todo ->
  forall done c, returns (agents_loop draws tau done todo) c.
Proof.
  induction 1 as [| agent rest Hp _ IH]; intros done c.
  - exists done, c. reflexivity.
  - destruct (agent_step_returns draws tau (done ++ agent :: rest) agent c
                (or_intror Hp)) as (s & v & c1 & _ & Hstep).
    destruct (IH (done ++ [after_turn draws agent s v c1]) (S (S c1)))
      as (out & c' & Hout).
    exists out, c'. rewrite run_agents_loop_cons, Hstep. exact Hout.
Qed.

(** The loop of a tick over a battlefield whose powers are all non-zero. *)
Lemma agents_loop_total draws tau todo c :
  Forall (fun a => power a <> 0) todo ->
  exists mid c',
    run (agents_loop draws tau [] todo) c = inr (mid, c') /\
    loop_trace draws tau [] todo c mid c'.
Proof.
  intros H.
  destruct (agents_loop_returns draws tau _ H [] c) as (mid & c' & Hrun).
  destruct (agents_loop_inv _ _ _ _ _ _ _ Hrun) as (new & Hout & Htrace).
  cbn [app] in Hout. subst new. eauto.
Qed.

(** ** The equilibrium correction and the whole tick *)

Lemma rebalance_fires agents :
  total_power agents < 10 ->
  _rebalance_strategic_equilibrium agents = map bonus agents.
Proof.
  intros H. unfold _rebalance_strategic_equilibrium.
  now rewrite (proj2 (Rltb_true_iff _ _) H).
Qed.

Lemma rebalance_idle agents :
  10 <= total_power agents ->
  _rebalance_strategic_equilibrium agents = agents.
Proof.
  intros H. unfold _rebalance_strategic_equilibrium.
  now rewrite (proj2 (Rltb_false_iff _ _) H).
Qed.

Lemma run_time_step draws tau bf c :
  run (time_step draws tau bf) c =
  match run (agents_loop draws tau [] (agents bf)) c with
  | inl e => inl e
  | inr (mid, c') =>
      inr (mkBattlefield (_rebalance_strategic_equilibrium mid)
                         (time_step_count bf + 1), c')
  end.
Proof.
  unfold time_step. rewrite run_bind.
  destruct (run (agents_loop draws tau [] (agents bf)) c) as [e | [mid c']];
    reflexivity.
Qed.

Lemma turn_taken_ok {before after} : turn_taken before after -> agent_ok after.
Proof.
  intros (_ & _ & Hp & Hpos). split; [| exact Hpos].
  rewrite Hp. apply Rmax_l.
Qed.

Lemma turns_taken_ok {todo new} :
  Forall2 turn_taken todo new -> Forall agent_ok new.
Proof.
  induction 1 as [| before after todo new Hturn _ IH]; constructor;
    [exact (turn_taken_ok Hturn) | exact IH].
Qed.

Lemma rebalance_ok agents :
  Forall agent_ok agents ->
  Forall agent_ok (_rebalance_strategic_equilibrium agents).
Proof.
  intros H. unfold _rebalance_strategic_equilibrium.
  destruct (Rltb (total_power agents) 10); [| exact H].
  apply Forall_map. revert H. apply Forall_impl.
  intros a [Hp Hpos]. split; [cbn; lra | exact Hpos].
Qed.

Lemma time_step_invariant draws tau bf c bf' c' :
  run (time_step draws tau bf) c = inr (bf', c') -> invariant bf'.
Proof.
  rewrite run_time_step.
  destruct (run (agents_loop draws tau [] (agents bf)) c)
    as [e | [mid c1]] eqn:Hloop; [discriminate |].
  intros Hrun. inversion Hrun; subst. unfold invariant. cbn [agents].
  apply rebalance_ok.
  destruct (agents_loop_inv _ _ _ _ _ _ _ Hloop) as (new & -> & Htrace).
  cbn [app]. apply loop_trace_turns in Htrace.
  exact (turns_taken_ok Htrace).
Qed.

Lemma time_step_returns draws tau bf c :
  Forall (fun a => power a <> 0) (agents bf) ->
  returns (time_step draws tau bf) c.
Proof.
  intros H.
  destruct (agents_loop_returns draws tau _ H [] c) as (mid & c' & Hrun).
  eexists _, _. rewrite run_time_step, Hrun. reflexivity.
Qed.

Lemma invariant_nonzero bf :
  invariant bf -> Forall (fun a => power a <> 0) (agents bf).
Proof.
  apply Forall_impl. intros a [Hp _]. lra.
Qed.

Lemma run_simulate_cons draws tau later bf c :
  run (simulate draws (tau :: later) bf) c =
  match run (time_step draws tau bf) c with
  | inl e => inl e
  | inr (bf', c1) =>
      match run (simulate draws later bf') c1 with
      | inl e => inl e
      | inr (trajectory, c') => inr (bf' :: trajectory, c')
      end
  end.
Proof.
  cbn [simulate]. rewrite run_bind.
  destruct (run (time_step draws tau bf) c) as [e | [bf' c1]]; [reflexivity |].
  rewrite run_bind.
  destruct (run (simulate draws later bf') c1) as [e | [tr c']]; reflexivity.
Qed.

Lemma simulate_invariant draws taus :
  forall bf c,
    Forall (fun a => power a <> 0) (agents bf) ->
    exists trajectory c',
      run (simulate draws taus bf) c = inr (trajectory, c') /\
      length trajectory = length taus /\
      Forall invariant trajectory.
Proof.
  induction taus as [| tau later IH]; intros bf c Hnz.
  - exists [], c. repeat split. constructor.
  - destruct (time_step_returns draws tau bf c Hnz) as (bf' & c1 & Hstep).
    pose proof (time_step_invariant _ _ _ _ _ _ Hstep) as Hinv.
    destruct (IH bf' c1 (invariant_nonzero _ Hinv)) as (tr & c' & Hrun & Hlen & Hall).
    exists (bf' :: tr), c'. rewrite run_simulate_cons, Hstep, Hrun.
    cbn [length]. repeat split; [congruence | constructor; assumption].
Qed.

(** ** Detection *)

Lemma detect_in_radius_filter agents agent radius :
  _detect_in_radius agents agent radius = filter (visible agent radius) agents.
Proof.
  induction agents as [| other rest IH]; [reflexivity |].
  cbn [_detect_in_radius filter]. unfold visible at 1. rewrite IH.
  destruct (negb _); [| reflexivity].
  destruct (Rltb _ radius); reflexivity.
Qed.

Lemma visible_true_iff agent radius other :
  visible agent radius other = true <->
  agent_id other <> agent_id agent /\
  linalg_norm (vsub (position other) (position agent)) < radius.
Proof.
  unfold visible.
  rewrite andb_true_iff, negb_true_iff, Z.eqb_neq, Rltb_true_iff. tauto.
Qed.

Lemma detect_in_radius_In agents agent radius other :
  In other (_detect_in_radius agents agent radius) <->
  In other agents /\
  agent_id other <> agent_id agent /\
  linalg_norm (vsub (position other) (position agent)) < radius.
Proof.
  rewrite detect_in_radius_filter, filter_In, visible_true_iff. tauto.
Qed.

Lemma run_agent_step_eq draws tau all agent c :
  run (agent_step draws tau all agent) c =
  match run (decide draws tau agent (_detect_in_radius all agent 3.0)) c with
  | inl e => inl e
  | inr ((s, v, _), c1) => inr (after_turn draws agent s v c1, S (S c1))
  end.
Proof.
  destruct (Req_dec_T (power agent) 0) as [Hz | Hnz].
  - destruct (_detect_in_radius all agent 3.0) as [| first others] eqn:Hfoes.
    + destruct (agent_step_returns draws tau all agent c (or_introl Hfoes))
        as (s & v & c1 & Hd & Hstep).
      rewrite Hfoes in Hd. rewrite Hstep, Hd. reflexivity.
    + rewrite agent_step_raises; [| rewrite Hfoes; discriminate | exact Hz].
      unfold decide. rewrite !run_bind, Hz, run_py_div_zero. reflexivity.
  - destruct (agent_step_returns draws tau all agent c (or_intror Hnz))
      as (s & v & c1 & Hd & Hstep).
    rewrite Hstep, Hd. reflexivity.
Qed.

(** ** Construction *)

Lemma run_StrategicAgent_init draws strategy i c :
  run (StrategicAgent_init draws strategy i) c =
  inr (mkAgent i (0.5 + (1.5 - 0.5) * draws c)
               (vscale (draws (S c), draws (S (S c))) 10)
               strategy maneuver zeros2,
       S (S (S c))).
Proof. reflexivity. Qed.

Lemma run_deploy_loop draws ids :
  forall acc c,
    run (deploy_loop draws ids acc) c =
    inr (acc ++ new_agents draws ids c, (4 * length ids + c)%nat).
Proof.
  induction ids as [| i rest IH]; intros acc c.
  - cbn [deploy_loop new_agents length]. rewrite run_ret, app_nil_r.
    reflexivity.
  - cbn [deploy_loop new_agents length].
    rewrite run_bind.
    replace (run (random_choice draws active passive) c)
      with (inr (if Rltb (draws c) 0.5 then active else passive, S c)
            : exception + Strategy * nat) by reflexivity.
    cbv beta iota.
    run_with run_StrategicAgent_init.
    rewrite IH, <- app_assoc. cbn [app]. do 2 f_equal. lia.
Qed.

Lemma run_Battlefield_init draws num_agents c :
  run (Battlefield_init draws num_agents) c =
  inr (mkBattlefield (new_agents draws (range num_agents) c) 0,
       (4 * length (range num_agents) + c)%nat).
Proof.
  unfold Battlefield_init, _deploy_forces.
  run_with run_deploy_loop. reflexivity.
Qed.

Lemma new_agents_ids draws ids :
  forall c, map agent_id (new_agents draws ids c) = ids.
Proof.
  induction ids as [| i rest IH]; intros c; cbn [new_agents map].
  - reflexivity.
  - rewrite IH. reflexivity.
Qed.

Lemma new_agents_fresh draws ids :
  unit_samples draws ->
  forall c, Forall freshly_made (new_agents draws ids c).
Proof.
  intros Hu. induction ids as [| i rest IH]; intros c; cbn [new_agents].
  - constructor.
  - constructor; [| apply IH].
    unfold freshly_made, new_agent, in_arena, vscale.
    cbn [power position status vector fst snd].
    pose proof (Hu (S c)). pose proof (Hu (S (S c))).
    pose proof (Hu (S (S (S c)))).
    repeat split; lra.
Qed.

Lemma range_NoDup n : NoDup (range n).
Proof.
  unfold range. apply Injective_map_NoDup.
  - intros x y. apply Nat2Z.inj.
  - apply seq_NoDup.
Qed.

Lemma range_In n i : In i (range n) <-> (0 <= i < n)%Z.
Proof.
  unfold range. rewrite in_map_iff. split.
  - intros (k & <- & Hk). apply in_seq in Hk. lia.
  - intros H. exists (Z.to_nat i). split; [lia |]. apply in_seq. lia.
Qed.

(** ** Worked examples *)

Lemma linalg_norm_pair_zero x y : x = 0 -> y = 0 -> linalg_norm (x, y) = 0.
Proof. intros -> ->. apply linalg_norm_zeros2. Qed.

Lemma scenario_nonzero : Forall (fun a => power a <> 0) (agents scenario).
Proof. repeat constructor; cbn; lra. Qed.

Ltac compare_reals :=
  repeat match goal with
    | |- context [Rltb ?a ?b] =>
        first [ rewrite (proj2 (Rltb_true_iff a b)) by lra
              | rewrite (proj2 (Rltb_false_iff a b)) by lra ]
    | |- context [Rleb ?a ?b] =>
        first [ rewrite (proj2 (Rleb_true_iff a b)) by lra
              | rewrite (proj2 (Rleb_false_iff a b)) by lra ]
    end.

(** [agent_A] sees a threat of 0.4 / 1.0 and attacks. *)
Example scenario_A_attacks :
  run (decide half_draws 1.0 agent_A [agent_B]) 0 =
  inr ((attack, attack_vector half_draws agent_A agent_B [] 0,
        decided agent_A attack (attack_vector half_draws agent_A agent_B [] 0)),
       2%nat).
Proof.
  unfold decide. rewrite run_bind.
  run_with (run_py_div (sum_power [agent_B]) (power agent_A) 0).
  - unfold sum_power. cbn [map fold_left power agent_A agent_B].
    compare_reals. run_with run_calculate_best_attack_vector. reflexivity.
  - cbn. lra.
Qed.

(** [agent_B] sees a threat of 1.0 / 0.4 = 2.5 and retreats. *)
Example scenario_B_retreats :
  run (decide half_draws 1.0 agent_B [agent_A]) 0 =
  inr ((retreat, escape_vector half_draws agent_B [agent_A] 0,
        decided agent_B retreat (escape_vector half_draws agent_B [agent_A] 0)),
       2%nat).
Proof.
  unfold decide. rewrite run_bind.
  run_with (run_py_div (sum_power [agent_A]) (power agent_B) 0).
  - unfold sum_power. cbn [map fold_left power agent_A agent_B].
    compare_reals. cbn [andb].
    run_with run_find_safest_escape_route. reflexivity.
  - cbn. lra.
Qed.

(** The two boundaries of the middle band belong to MANEUVER. *)
Example stance_at_lower_boundary tau : 0 <= tau -> stance_of tau tau = maneuver.
Proof. intros H. unfold stance_of. compare_reals. reflexivity. Qed.

Example stance_at_upper_boundary tau :
  0 <= tau -> stance_of tau (1.4 * tau) = maneuver.
Proof. intros H. unfold stance_of. compare_reals. reflexivity. Qed.

Example stance_just_above_upper_boundary : stance_of 1.0 1.41 = retreat.
Proof. unfold stance_of. compare_reals. reflexivity. Qed.

(** An agent at distance exactly 3 is not seen; one at distance 1 is. *)
Example detection_at_the_radius :
  _detect_in_radius [agent_A; agent_B; agent_D] agent_A 3.0 = [agent_B].
Proof.
  assert (HB : linalg_norm (vsub (position agent_B) (position agent_A)) = 1).
  { unfold linalg_norm, vsub. cbn [position agent_A agent_B fst snd].
    replace ((1 - 0) * (1 - 0) + (0 - 0) * (0 - 0)) with 1 by lra.
    apply sqrt_1. }
  assert (HD : linalg_norm (vsub (position agent_D) (position agent_A)) = 3).
  { unfold linalg_norm, vsub. cbn [position agent_A agent_D fst snd].
    replace ((3 - 0) * (3 - 0) + (0 - 0) * (0 - 0)) with (3 * 3) by lra.
    apply sqrt_square. lra. }
  cbn [_detect_in_radius]. rewrite HB, HD.
  cbn [agent_id agent_A agent_B agent_D Z.eqb Pos.eqb negb].
  compare_reals. reflexivity.
Qed.

(** * The claims *)

(** C1. After every call of [time_step] every agent has power at least 0.1
    and a position inside [0,10] x [0,10]: whenever a tick returns, its
    result satisfies [invariant], whatever the stances, the draws and the
    threshold; and from a battlefield without a zero power every tick of a
    run returns, so the invariant holds along the whole trajectory. *)
Theorem tick_invariant draws tau taus bf c :
  (forall bf' c',
      run (time_step draws tau bf) c = inr (bf', c') -> invariant bf') /\
  (Forall (fun a => power a <> 0) (agents bf) ->
   exists trajectory c',
     run (simulate draws taus bf) c = inr (trajectory, c') /\
     length trajectory = length taus /\
     Forall invariant trajectory).
Proof.
  split.
  - intros bf' c'. apply time_step_invariant.
  - apply simulate_invariant.
Qed.

Lemma tick_invariant_witness :
  (exists bf' c',
      run (time_step half_draws 1.0 scenario) 0 = inr (bf', c') /\
      invariant bf') /\
  (exists trajectory c',
      run (simulate half_draws [1.0; 1.5] scenario) 0 = inr (trajectory, c') /\
      length trajectory = 2%nat /\
      Forall invariant trajectory).
Proof.
  pose proof (tick_invariant half_draws 1.0 [1.0; 1.5] scenario 0) as [Hone Hall].
  split.
  - destruct (time_step_returns half_draws 1.0 scenario 0 scenario_nonzero)
      as (bf' & c' & Hrun).
    exists bf', c'. split; [exact Hrun | exact (Hone bf' c' Hrun)].
  - apply Hall. repeat constructor; cbn; lra.
Defined.

(** C2. With at least one visible rival and positive powers, [decide]
    returns, and the stance it sets is the three-band function of
    threat_ratio = (sum of rival powers) / own power: below tau it is
    ATTACK, from tau to 1.4 tau (both ends included) MANEUVER, above
    1.4 tau RETREAT, for every threshold tau. *)
Theorem threat_bands draws tau self first others c :
  0 < power self ->
  Forall (fun op => 0 < power op) (first :: others) ->
  let opponents := first :: others in
  let threat_ratio := sum_power opponents / power self in
  exists s v self' c',
    run (decide draws tau self opponents) c = inr ((s, v, self'), c') /\
    status self' = s /\
    s = stance_of tau threat_ratio /\
    (threat_ratio < tau -> s = attack) /\
    (tau <= threat_ratio <= 1.4 * tau -> s = maneuver) /\
    (1.4 * tau < threat_ratio -> s = retreat).
Proof.
  intros Hself Hopps opponents threat_ratio.
  assert (Hnz : power self <> 0) by lra.
  destruct (run_decide_opponents draws tau self first others c Hnz)
    as [c' Hrun].
  cbv zeta in Hrun. fold opponents in Hrun. fold threat_ratio in Hrun.
  eexists _, _, _, c'. split; [exact Hrun |].
  split; [reflexivity |]. split; [reflexivity |].
  assert (Hpos : 0 < threat_ratio).
  { unfold threat_ratio, opponents.
    apply Rdiv_lt_0_compat; [apply sum_power_pos; exact Hopps | exact Hself]. }
  unfold stance_of.
  destruct (Rltb threat_ratio (1.0 * tau)) eqn:Hlt.
  - apply Rltb_true_iff in Hlt. repeat split; intros; lra.
  - apply Rltb_false_iff in Hlt.
    destruct (Rleb (1.0 * tau) threat_ratio && Rleb threat_ratio (1.4 * tau))
      eqn:Hmid.
    + apply andb_true_iff in Hmid. destruct Hmid as [_ Hhi].
      apply Rleb_true_iff in Hhi. repeat split; intros; lra.
    + apply andb_false_iff in Hmid. destruct Hmid as [Hlo | Hhi].
      * apply Rleb_false_iff in Hlo. lra.
      * apply Rleb_false_iff in Hhi. repeat split; intros; lra.
Qed.

Lemma threat_bands_witness :
  exists v self' c',
    run (decide half_draws 1.0 agent_A [agent_B]) 0 = inr ((attack, v, self'), c') /\
    status self' = attack.
Proof.
  assert (HA : 0 < power agent_A) by (cbn; lra).
  assert (HB : Forall (fun op => 0 < power op) [agent_B])
    by (repeat constructor; cbn; lra).
  destruct (threat_bands half_draws 1.0 agent_A agent_B [] 0 HA HB)
    as (s & v & self' & c' & Hrun & Hst & _ & Hattack & _ & _).
  assert (Hs : s = attack).
  { apply Hattack. unfold sum_power. cbn. lra. }
  exists v, self', c'. rewrite <- Hs. split; assumption.
Defined.

(** C3. Absent the equilibrium correction, an agent's power after a tick is
    max(0.1, power before - decay), the decay being that of the stance
    decided in this tick (ATTACK 0.02, RETREAT 0.015, MANEUVER 0.005); so
    an agent that starts the tick with power at least 0.1 does not gain
    power in the per-agent phase.  Stated for one turn, for the whole
    per-agent loop, and for a tick in which the correction does not fire. *)
Theorem power_decay draws tau bf c :
  (decay attack = 0.02 /\ decay retreat = 0.015 /\ decay maneuver = 0.005) /\
  (forall all agent c0 s v c1,
      run (decide draws tau agent (_detect_in_radius all agent 3.0)) c0 =
        inr ((s, v, decided agent s v), c1) ->
      exists agent',
        run (agent_step draws tau all agent) c0 = inr (agent', S (S c1)) /\
        status agent' = s /\
        power agent' = Rmax 0.1 (power agent - decay s)) /\
  (Forall (fun a => power a <> 0) (agents bf) ->
   exists mid c',
     run (agents_loop draws tau [] (agents bf)) c = inr (mid, c') /\
     Forall2 (fun before after =>
                power after = Rmax 0.1 (power before - decay (status after)) /\
                (0.1 <= power before -> power after <= power before))
             (agents bf) mid /\
     (10 <= total_power mid ->
      run (time_step draws tau bf) c =
        inr (mkBattlefield mid (time_step_count bf + 1), c'))).
Proof.
  split; [repeat split |]. split.
  - intros all agent c0 s v c1 Hd.
    exists (after_turn draws agent s v c1).
    split; [now apply run_agent_step |].
    destruct (after_turn_taken draws agent s v c1) as ((_ & _ & Hp & _) & Hs & _).
    rewrite Hs in Hp. split; assumption.
  - intros Hnz.
    destruct (agents_loop_total draws tau _ c Hnz) as (mid & c' & Hrun & Htrace).
    exists mid, c'. split; [exact Hrun |]. split.
    + apply loop_trace_turns in Htrace. revert Htrace.
      apply Forall2_impl. intros before after Hturn.
      destruct Hturn as (_ & _ & Hp & _). split; [exact Hp |].
      intros Hfloor. rewrite Hp. unfold Rmax.
      destruct (Rle_dec 0.1 (power before - decay (status after)));
        [| lra].
      destruct (status after); cbn [decay]; lra.
    + intros Hidle. rewrite run_time_step, Hrun, (rebalance_idle _ Hidle).
      reflexivity.
Qed.

Lemma power_decay_witness :
  (exists agent',
      run (agent_step half_draws 1.0 [agent_A] agent_A) 0 = inr (agent', 6%nat) /\
      status agent' = maneuver /\
      power agent' = Rmax 0.1 (power agent_A - decay maneuver)) /\
  (exists mid c',
      run (agents_loop half_draws 1.0 [] (agents scenario)) 0 = inr (mid, c') /\
      Forall2 (fun before after =>
                 power after = Rmax 0.1 (power before - decay (status after)) /\
                 (0.1 <= power before -> power after <= power before))
              (agents scenario) mid).
Proof.
  pose proof (power_decay half_draws 1.0 scenario 0) as (_ & Hturn & Hloop).
  split.
  - apply (Hturn [agent_A] agent_A 0%nat maneuver (defensive_vector half_draws 0)).
    apply (run_decide_no_opponents half_draws 1.0 agent_A 0).
  - destruct Hloop as (mid & c' & Hrun & Hall & _).
    + repeat constructor; cbn; lra.
    + exists mid, c'. split; assumption.
Defined.

(** C4. The equilibrium correction runs once per tick, on the agents as
    the per-agent loop left them: if their powers sum to less than 10,
    every agent gains exactly 0.03 and nothing else changes; otherwise the
    agents stay as the loop left them.  The tick counter grows by one. *)
Theorem equilibrium_correction draws tau bf c :
  Forall (fun a => power a <> 0) (agents bf) ->
  exists mid bf' c',
    run (agents_loop draws tau [] (agents bf)) c = inr (mid, c') /\
    run (time_step draws tau bf) c = inr (bf', c') /\
    time_step_count bf' = (time_step_count bf + 1)%Z /\
    (total_power mid < 10 ->
     Forall2 (fun before after =>
                power after = power before + 0.03 /\
                after = set_power before (power after))
             mid (agents bf')) /\
    (10 <= total_power mid -> agents bf' = mid).
Proof.
  intros Hnz.
  destruct (agents_loop_total draws tau _ c Hnz) as (mid & c' & Hrun & _).
  exists mid, (mkBattlefield (_rebalance_strategic_equilibrium mid)
                             (time_step_count bf + 1)), c'.
  split; [exact Hrun |]. split; [rewrite run_time_step, Hrun; reflexivity |].
  split; [reflexivity |]. cbn [agents]. split.
  - intros Hlow. rewrite (rebalance_fires _ Hlow).
    clear. induction mid as [| m mid IH]; cbn [map]; constructor;
      [split; reflexivity | exact IH].
  - apply rebalance_idle.
Qed.

Lemma equilibrium_correction_witness :
  exists mid bf' c',
    run (agents_loop half_draws 1.0 [] (agents scenario)) 0 = inr (mid, c') /\
    run (time_step half_draws 1.0 scenario) 0 = inr (bf', c') /\
    time_step_count bf' = 1%Z.
Proof.
  destruct (equilibrium_correction half_draws 1.0 scenario 0)
    as (mid & bf' & c' & Hloop & Hrun & Hcount & _).
  - repeat constructor; cbn; lra.
  - exists mid, bf', c'. repeat split; assumption.
Defined.

(** C5. With no visible rival, [decide] sets the stance MANEUVER and the
    vector that [generate_defensive_pattern] produces from the same cursor;
    nothing is divided by the agent's power, so this holds for every power,
    position and threshold. *)
Theorem empty_rivals_fallback draws tau self c :
  exists v c',
    run (generate_defensive_pattern draws) c = inr (v, c') /\
    run (decide draws tau self []) c =
      inr ((maneuver, v, set_vector (set_status self maneuver) v), c').
Proof.
  eexists _, _. split.
  - apply run_generate_defensive_pattern.
  - apply run_decide_no_opponents.
Qed.

(** C6, as amended.  Constructing a battlefield with zero agents does not
    raise: it returns a battlefield with an empty population and tick count
    0, without drawing from the random source. *)
Theorem zero_agents_construct_empty draws c :
  run (Battlefield_init draws 0) c = inr (mkBattlefield [] 0, c).
Proof. apply run_Battlefield_init. Qed.

(** C6 as stated fails: for [num_agents = 0] the constructor returns; no
    exception is raised. *)
Lemma zero_agents_do_not_raise :
  run (Battlefield_init half_draws 0) 0 = inr (mkBattlefield [] 0, 0%nat) /\
  ~ (exists e, run (Battlefield_init half_draws 0) 0 = inl e).
Proof.
  assert (H : run (Battlefield_init half_draws 0) 0 = inr (mkBattlefield [] 0, 0%nat))
    by apply run_Battlefield_init.
  split; [exact H |]. intros [e He]. rewrite H in He. discriminate.
Qed.

(** C7. No policy ever divides by zero: each of the three returns for every
    input (the mean over the rivals included).  And whenever the direction
    computed before the jitter has norm 0, the divisor is 1: the direction,
    which is then the zero vector, is used as it is, and the result is
    direction / 1 + jitter. *)
Theorem zero_norm_guard draws self first others c :
  (forall opponents,
      returns (generate_defensive_pattern draws) c /\
      returns (calculate_best_attack_vector draws self opponents) c /\
      returns (find_safest_escape_route draws self opponents) c) /\
  (let direction := defensive_direction draws c in
   linalg_norm direction = 0 ->
   direction = zeros2 /\
   run (generate_defensive_pattern draws) c =
     inr (vadd (fst direction / 1, snd direction / 1)
               (pair_at draws (- chaos_factor / 2) (chaos_factor / 2) (S (S c))),
          S (S (S (S c))))) /\
  (let direction := attack_direction self first others in
   linalg_norm direction = 0 ->
   direction = zeros2 /\
   run (calculate_best_attack_vector draws self (first :: others)) c =
     inr (vadd (fst direction / 1, snd direction / 1)
               (pair_at draws (- chaos_factor) chaos_factor c),
          S (S c))) /\
  (let direction := escape_direction self (first :: others) in
   linalg_norm direction = 0 ->
   direction = zeros2 /\
   run (find_safest_escape_route draws self (first :: others)) c =
     inr (vadd (fst direction / 1, snd direction / 1)
               (pair_at draws (- chaos_factor) chaos_factor c),
          S (S c))).
Proof.
  split; [intros opponents; apply policies_return |].
  split; [| split]; intros direction Hzero;
    (split; [exact (linalg_norm_zero _ Hzero) |]).
  - rewrite run_generate_defensive_pattern. fold direction.
    unfold normalized. rewrite (denominator_zero_norm _ Hzero). reflexivity.
  - rewrite run_calculate_best_attack_vector. fold direction.
    unfold normalized. rewrite (denominator_zero_norm _ Hzero). reflexivity.
  - rewrite run_find_safest_escape_route. fold direction.
    unfold normalized. rewrite (denominator_zero_norm _ Hzero). reflexivity.
Qed.

Lemma zero_norm_guard_witness :
  run (generate_defensive_pattern half_draws) 0 =
    inr (vadd (fst (defensive_direction half_draws 0) / 1,
               snd (defensive_direction half_draws 0) / 1)
              (pair_at half_draws (- chaos_factor / 2) (chaos_factor / 2) 2),
         4%nat) /\
  run (calculate_best_attack_vector half_draws agent_A [agent_C]) 0 =
    inr (vadd (fst (attack_direction agent_A agent_C []) / 1,
               snd (attack_direction agent_A agent_C []) / 1)
              (pair_at half_draws (- chaos_factor) chaos_factor 0),
         2%nat) /\
  run (find_safest_escape_route half_draws agent_A [agent_C]) 0 =
    inr (vadd (fst (escape_direction agent_A [agent_C]) / 1,
               snd (escape_direction agent_A [agent_C]) / 1)
              (pair_at half_draws (- chaos_factor) chaos_factor 0),
         2%nat).
Proof.
  pose proof (zero_norm_guard half_draws agent_A agent_C [] 0)
    as (_ & Hdef & Hatt & Hesc).
  split; [| split].
  - apply Hdef. apply linalg_norm_pair_zero; unfold half_draws; lra.
  - apply Hatt. apply linalg_norm_pair_zero; cbn; lra.
  - apply Hesc. apply linalg_norm_pair_zero; cbn; lra.
Defined.

(** C8. The rivals an agent sees are exactly the agents of the list with
    another id whose Euclidean distance to it is strictly below 3.0, in list
    order: an agent at distance 3.0 or more is not seen, and no agent with
    the agent's own id (the agent itself in particular) is.  Each turn of
    the tick's loop passes this list, computed over the agents as they
    stand, to [decide]. *)
Theorem visible_rivals_exact draws tau done agent rest other c :
  let all := done ++ agent :: rest in
  let distance := linalg_norm (vsub (position other) (position agent)) in
  (In other (_detect_in_radius all agent 3.0) <->
   In other all /\ agent_id other <> agent_id agent /\ distance < 3.0) /\
  _detect_in_radius all agent 3.0 = filter (visible agent 3.0) all /\
  (3.0 <= distance -> ~ In other (_detect_in_radius all agent 3.0)) /\
  ~ In agent (_detect_in_radius all agent 3.0) /\
  run (agents_loop draws tau done (agent :: rest)) c =
    match run (decide draws tau agent (_detect_in_radius all agent 3.0)) c with
    | inl e => inl e
    | inr ((s, v, _), c1) =>
        run (agents_loop draws tau (done ++ [after_turn draws agent s v c1]) rest)
            (S (S c1))
    end.
Proof.
  intros all distance.
  split; [apply detect_in_radius_In |].
  split; [apply detect_in_radius_filter |].
  split; [| split].
  - intros Hfar Hin. apply detect_in_radius_In in Hin.
    destruct Hin as (_ & _ & Hnear). fold distance in Hnear. lra.
  - intros Hin. apply detect_in_radius_In in Hin.
    destruct Hin as (_ & Hid & _). now apply Hid.
  - rewrite run_agents_loop_cons, run_agent_step_eq. fold all.
    destruct (run (decide draws tau agent (_detect_in_radius all agent 3.0)) c)
      as [e | [[[s v] self'] c1]]; reflexivity.
Qed.

Lemma visible_rivals_exact_witness :
  In agent_B (_detect_in_radius [agent_A; agent_B] agent_A 3.0) /\
  ~ In agent_A (_detect_in_radius [agent_A; agent_B] agent_A 3.0).
Proof.
  pose proof (visible_rivals_exact half_draws 1.0 [] agent_A [agent_B] agent_B 0)
    as (Hin & _ & _ & Hself & _).
  split; [| exact Hself].
  apply Hin. split; [right; left; reflexivity |].
  split; [cbn; lia |].
  unfold linalg_norm, vsub. cbn [position agent_A agent_B fst snd].
  replace ((1 - 0) * (1 - 0) + (0 - 0) * (0 - 0)) with 1 by lra.
  rewrite sqrt_1. lra.
Defined.

(** C10. A battlefield as constructed satisfies the tick invariants before
    the first tick: when the samples lie in [0,1), construction returns,
    every agent has power in [0.5,1.5] and both coordinates in [0,10], stance
    MANEUVER and the zero vector, the ids are 0, ..., n-1 in order and
    pairwise distinct, and the tick count is 0. *)
Theorem initial_state_invariants draws num_agents c :
  unit_samples draws ->
  exists bf c',
    run (Battlefield_init draws num_agents) c = inr (bf, c') /\
    Forall freshly_made (agents bf) /\
    invariant bf /\
    map agent_id (agents bf) = range num_agents /\
    (forall i, In i (map agent_id (agents bf)) <-> (0 <= i < num_agents)%Z) /\
    NoDup (map agent_id (agents bf)) /\
    length (agents bf) = Z.to_nat num_agents /\
    time_step_count bf = 0%Z.
Proof.
  intros Hu. eexists _, _. split; [apply run_Battlefield_init |].
  cbn [agents time_step_count].
  pose proof (new_agents_fresh draws (range num_agents) Hu c) as Hfresh.
  pose proof (new_agents_ids draws (range num_agents) c) as Hids.
  split; [exact Hfresh |]. split.
  - unfold invariant. cbn [agents]. revert Hfresh. apply Forall_impl.
    intros a (Hp & Hpos & _). split; [lra | exact Hpos].
  - rewrite Hids. split; [reflexivity |].
    split; [intros i; apply range_In |].
    split; [apply range_NoDup |]. split; [| reflexivity].
    rewrite <- (length_map agent_id), Hids. unfold range.
    rewrite length_map, length_seq. reflexivity.
Qed.

Lemma initial_state_invariants_witness :
  exists bf c',
    run (Battlefield_init half_draws 3) 0 = inr (bf, c') /\
    Forall freshly_made (agents bf) /\
    map agent_id (agents bf) = [0; 1; 2]%Z.
Proof.
  destruct (initial_state_invariants half_draws 3 0)
    as (bf & c' & Hrun & Hfresh & _ & Hids & _).
  - intros k. unfold half_draws. lra.
  - exists bf, c'. repeat split; assumption.
Defined.

(** * Further properties of the battlefield *)

(** ** The population and the clock *)

Lemma turns_taken_ids todo new :
  Forall2 turn_taken todo new ->
  map agent_id new = map agent_id todo /\
  map strategy_type new = map strategy_type todo.
Proof.
  induction 1 as [| before after todo new (Hid & Hst & _) _ [IHid IHst]];
    cbn [map]; [split; reflexivity |].
  rewrite Hid, Hst, IHid, IHst. split; reflexivity.
Qed.

Lemma rebalance_keeps agents :
  map agent_id (_rebalance_strategic_equilibrium agents) = map agent_id agents /\
  map strategy_type (_rebalance_strategic_equilibrium agents) =
    map strategy_type agents /\
  map position (_rebalance_strategic_equilibrium agents) = map position agents /\
  map status (_rebalance_strategic_equilibrium agents) = map status agents /\
  map vector (_rebalance_strategic_equilibrium agents) = map vector agents.
Proof.
  unfold _rebalance_strategic_equilibrium.
  destruct (Rltb (total_power agents) 10); [| repeat split].
  rewrite !map_map. repeat split.
Qed.

Lemma time_step_inv {draws tau bf c bf' c'} :
  run (time_step draws tau bf) c = inr (bf', c') ->
  exists mid,
    loop_trace draws tau [] (agents bf) c mid c' /\
    bf' = mkBattlefield (_rebalance_strategic_equilibrium mid)
                        (time_step_count bf + 1).
Proof.
  rewrite run_time_step.
  destruct (run (agents_loop draws tau [] (agents bf)) c)
    as [e | [mid c1]] eqn:Hloop; [discriminate |].
  intros H. inversion H; subst.
  destruct (agents_loop_inv _ _ _ _ _ _ _ Hloop) as (new & Hout & Htrace).
  cbn [app] in Hout. subst new. exists mid. split; [exact Htrace | reflexivity].
Qed.

Lemma time_step_keeps_population_core {draws tau bf c bf' c'} :
  run (time_step draws tau bf) c = inr (bf', c') ->
  map agent_id (agents bf') = map agent_id (agents bf) /\
  map strategy_type (agents bf') = map strategy_type (agents bf) /\
  length (agents bf') = length (agents bf).
Proof.
  intros Hrun. destruct (time_step_inv Hrun) as (mid & Htrace & ->).
  cbn [agents]. apply loop_trace_turns, turns_taken_ids in Htrace.
  destruct Htrace as [Hid Hst].
  destruct (rebalance_keeps mid) as (Rid & Rst & _).
  assert (Hids : map agent_id (_rebalance_strategic_equilibrium mid) =
                 map agent_id (agents bf)) by congruence.
  split; [exact Hids |]. split; [congruence |].
  rewrite <- (length_map agent_id), Hids. apply length_map.
Qed.

(** X1. A tick neither adds nor removes nor reorders agents: the ids and
    the strategy types after the tick are those before it, position by
    position in the list. *)
Theorem time_step_keeps_population draws tau bf c bf' c' :
  run (time_step draws tau bf) c = inr (bf', c') ->
  map agent_id (agents bf') = map agent_id (agents bf) /\
  map strategy_type (agents bf') = map strategy_type (agents bf) /\
  length (agents bf') = length (agents bf).
Proof. apply time_step_keeps_population_core. Qed.

Lemma time_step_keeps_population_witness :
  exists bf' c',
    run (time_step half_draws 1.0 scenario) 0 = inr (bf', c') /\
    map agent_id (agents bf') = [0; 1]%Z.
Proof.
  destruct (time_step_returns half_draws 1.0 scenario 0 scenario_nonzero)
    as (bf' & c' & Hrun).
  exists bf', c'. split; [exact Hrun |].
  exact (proj1 (time_step_keeps_population _ _ _ _ _ _ Hrun)).
Defined.

Lemma simulate_inv {draws tau later bf c trajectory c'} :
  run (simulate draws (tau :: later) bf) c = inr (trajectory, c') ->
  exists bf' c1 rest,
    run (time_step draws tau bf) c = inr (bf', c1) /\
    run (simulate draws later bf') c1 = inr (rest, c') /\
    trajectory = bf' :: rest.
Proof.
  rewrite run_simulate_cons.
  destruct (run (time_step draws tau bf) c) as [e | [bf' c1]] eqn:Hstep;
    [discriminate |].
  destruct (run (simulate draws later bf') c1) as [e | [rest c2]] eqn:Hrest;
    [discriminate |].
  intros H. inversion H; subst. exists bf', c1, rest. repeat split.
  exact Hrest.
Qed.

Lemma simulate_population_core draws taus bf c trajectory c' :
  run (simulate draws taus bf) c = inr (trajectory, c') ->
  Forall (fun b => map agent_id (agents b) = map agent_id (agents bf))
         trajectory /\
  map time_step_count trajectory =
    map (fun k => (time_step_count bf + Z.of_nat k)%Z) (seq 1 (length taus)).
Proof.
  revert bf c trajectory c'.
  induction taus as [| tau later IH]; intros bf c trajectory c' Hrun.
  - cbn [simulate] in Hrun. rewrite run_ret in Hrun. inversion Hrun; subst.
    split; [constructor | reflexivity].
  - destruct (simulate_inv Hrun) as (bf' & c1 & rest & Hstep & Hrest & ->).
    destruct (IH _ _ _ _ Hrest) as [Hpop Hcount].
    destruct (time_step_keeps_population_core Hstep) as [Hids _].
    destruct (time_step_inv Hstep) as (mid & _ & Hbf').
    assert (Hc : time_step_count bf' = (time_step_count bf + 1)%Z)
      by (rewrite Hbf'; reflexivity).
    split.
    + constructor; [exact Hids |].
      revert Hpop. apply Forall_impl. intros b Hb. congruence.
    + cbn [map length seq]. f_equal; [rewrite Hc; reflexivity |].
      rewrite Hcount, <- (seq_shift (length later) 1), map_map.
      apply map_ext. intros k. rewrite Hc. lia.
Qed.

(** X2. Along a run the population stays what it was at the start and the
    clock counts the calls: the battlefield after the k-th tick has the
    initial ids, in order, and the initial tick count plus k. *)
Theorem run_keeps_population_and_counts draws taus bf c trajectory c' :
  run (simulate draws taus bf) c = inr (trajectory, c') ->
  Forall (fun b => map agent_id (agents b) = map agent_id (agents bf))
         trajectory /\
  map time_step_count trajectory =
    map (fun k => (time_step_count bf + Z.of_nat k)%Z) (seq 1 (length taus)).
Proof. apply simulate_population_core. Qed.

Lemma run_keeps_population_and_counts_witness :
  exists trajectory c',
    run (simulate half_draws [1.0; 1.5; 0.5] scenario) 0 = inr (trajectory, c') /\
    map time_step_count trajectory = [1; 2; 3]%Z.
Proof.
  destruct (simulate_invariant half_draws [1.0; 1.5; 0.5] scenario 0
              scenario_nonzero) as (trajectory & c' & Hrun & _).
  exists trajectory, c'. split; [exact Hrun |].
  exact (proj2 (run_keeps_population_and_counts _ _ _ _ _ _ Hrun)).
Defined.

(** ** Samples consumed *)

Lemma run_decide_zero_power draws tau self first others c :
  power self = 0 ->
  run (decide draws tau self (first :: others)) c = inl ZeroDivisionError.
Proof.
  intros Hp. unfold decide. rewrite !run_bind, Hp, run_py_div_zero.
  reflexivity.
Qed.

Lemma run_decide_opponents_at draws tau self first others c :
  power self <> 0 ->
  let opponents := first :: others in
  let s := stance_of tau (sum_power opponents / power self) in
  run (decide draws tau self opponents) c =
  inr ((s, vector_of draws s self opponents c,
        decided self s (vector_of draws s self opponents c)),
       (policy_draws s + c)%nat).
Proof.
  intros Hp opponents s. subst s opponents.
  unfold decide, stance_of. rewrite run_bind.
  run_with (run_py_div (sum_power (first :: others)) _ c Hp).
  destruct (Rltb _ (1.0 * tau)).
  - run_with run_calculate_best_attack_vector. reflexivity.
  - destruct (Rleb (1.0 * tau) _ && Rleb _ (1.4 * tau)).
    + run_with run_generate_defensive_pattern. reflexivity.
    + run_with run_find_safest_escape_route. reflexivity.
Qed.

(** Everything a returning call of [decide] determines. *)
Lemma decide_inv {draws tau self opponents c s v self' c1} :
  run (decide draws tau self opponents) c = inr ((s, v, self'), c1) ->
  self' = decided self s v /\
  v = vector_of draws s self opponents c /\
  c1 = (policy_draws s + c)%nat /\
  match opponents with
  | [] => s = maneuver
  | _ :: _ =>
      power self <> 0 /\ s = stance_of tau (sum_power opponents / power self)
  end.
Proof.
  intros Hrun. destruct opponents as [| first others].
  - rewrite run_decide_no_opponents in Hrun. inversion Hrun; subst.
    repeat split.
  - destruct (Req_dec_T (power self) 0) as [Hz | Hnz].
    + rewrite run_decide_zero_power in Hrun by exact Hz. discriminate.
    + rewrite (run_decide_opponents_at draws tau self first others c Hnz)
        in Hrun.
      inversion Hrun; subst. repeat split. exact Hnz.
Qed.

Lemma loop_trace_draws {draws tau done todo c new c'} :
  loop_trace draws tau done todo c new c' -> c' = (draws_used new + c)%nat.
Proof.
  induction 1 as [done c | done agent rest c s v c1 new c' Hd _ IH].
  - reflexivity.
  - destruct (decide_inv Hd) as (_ & _ & Hc1 & _).
    cbn [draws_used fold_right].
    destruct (after_turn_taken draws agent s v c1) as (_ & Hs & _).
    rewrite Hs. fold (draws_used new). unfold turn_draws. lia.
Qed.

Lemma draws_used_by_status l1 :
  forall l2, map status l1 = map status l2 -> draws_used l1 = draws_used l2.
Proof.
  induction l1 as [| a l1 IH]; intros [| b l2] H; cbn [map] in H;
    try discriminate; [reflexivity |].
  inversion H as [[Hs Hrest]]. cbn [draws_used fold_right].
  fold (draws_used l1). fold (draws_used l2). rewrite Hs, (IH _ Hrest).
  reflexivity.
Qed.

Lemma draws_used_bounds l :
  (4 * length l <= draws_used l <= 6 * length l)%nat.
Proof.
  induction l as [| a l IH]; cbn [draws_used fold_right length]; [lia |].
  fold (draws_used l).
  destruct (status a); unfold turn_draws, policy_draws; lia.
Qed.

(** X3. The number of random samples a tick consumes is fixed by the
    stances it leaves: six for every agent that maneuvers, four for every
    agent that attacks or retreats.  So a tick over n agents advances the
    random stream by between 4 n and 6 n samples. *)
Theorem samples_consumed_by_a_tick draws tau bf c bf' c' :
  run (time_step draws tau bf) c = inr (bf', c') ->
  c' = (draws_used (agents bf') + c)%nat /\
  (c + 4 * length (agents bf) <= c' <= c + 6 * length (agents bf))%nat.
Proof.
  intros Hrun.
  destruct (time_step_keeps_population_core Hrun) as (_ & _ & Hlen).
  destruct (time_step_inv Hrun) as (mid & Htrace & ->).
  cbn [agents] in *.
  assert (Hused : draws_used (_rebalance_strategic_equilibrium mid) =
                  draws_used mid).
  { apply draws_used_by_status. apply rebalance_keeps. }
  rewrite Hused. pose proof (loop_trace_draws Htrace) as Hc.
  split; [exact Hc |].
  pose proof (draws_used_bounds (_rebalance_strategic_equilibrium mid)) as Hb.
  rewrite Hused, Hlen in Hb. lia.
Qed.

Lemma samples_consumed_by_a_tick_witness :
  exists bf' c',
    run (time_step half_draws 1.0 scenario) 0 = inr (bf', c') /\
    (8 <= c' <= 12)%nat.
Proof.
  destruct (time_step_returns half_draws 1.0 scenario 0 scenario_nonzero)
    as (bf' & c' & Hrun).
  exists bf', c'. split; [exact Hrun |].
  pose proof (proj2 (samples_consumed_by_a_tick _ _ _ _ _ _ Hrun)) as H.
  cbn in H. lia.
Defined.
(** ** The weakest rival *)

Lemma min_by_power_snoc first others x :
  min_by_power first (others ++ [x]) =
  if Rltb (power x) (power (min_by_power first others)) then x
  else min_by_power first others.
Proof. unfold min_by_power. rewrite fold_left_app. reflexivity. Qed.

(** X4. The target of an attack is the earliest rival of least power: it is
    one of the rivals, none is weaker, and every rival listed before it is
    strictly stronger. *)
Theorem weakest_is_first_minimum first others :
  let weakest := min_by_power first others in
  Forall (fun op => power weakest <= power op) (first :: others) /\
  exists before after,
    first :: others = before ++ weakest :: after /\
    Forall (fun op => power weakest < power op) before.
Proof.
  induction others as [| x others IH] using rev_ind; cbv zeta.
  - split; [constructor; [unfold min_by_power; cbn; lra | constructor] |].
    exists [], []. split; [reflexivity | constructor].
  - cbv zeta in IH. destruct IH as (Hmin & before & after & Hsplit & Hbefore).
    rewrite min_by_power_snoc.
    destruct (Rltb (power x) (power (min_by_power first others))) eqn:Hlt.
    + apply Rltb_true_iff in Hlt. split.
      * change (first :: others ++ [x]) with ((first :: others) ++ [x]).
        apply Forall_app. split.
        -- revert Hmin. apply Forall_impl. intros op Hop. lra.
        -- constructor; [lra | constructor].
      * exists (first :: others), []. split; [reflexivity |].
        revert Hmin. apply Forall_impl. intros op Hop. lra.
    + apply Rltb_false_iff in Hlt. split.
      * change (first :: others ++ [x]) with ((first :: others) ++ [x]).
        apply Forall_app. split; [exact Hmin |].
        constructor; [exact Hlt | constructor].
      * exists before, (after ++ [x]). split; [| exact Hbefore].
        change (first :: others ++ [x]) with ((first :: others) ++ [x]).
        rewrite Hsplit, <- app_assoc. reflexivity.
Qed.

(** ** Detection *)

Lemma linalg_norm_vsub_sym p q : linalg_norm (vsub p q) = linalg_norm (vsub q p).
Proof.
  unfold linalg_norm, vsub. cbn [fst snd]. f_equal. ring.
Qed.

(** X5. Seeing is mutual: within one agent list and one radius, if an
    agent sees another, the other sees it. *)
Theorem detection_is_symmetric all a b radius :
  In a all ->
  In b (_detect_in_radius all a radius) ->
  In a (_detect_in_radius all b radius).
Proof.
  intros Ha Hb. apply detect_in_radius_In in Hb.
  destruct Hb as (_ & Hid & Hnear).
  apply detect_in_radius_In. split; [exact Ha |]. split; [congruence |].
  rewrite linalg_norm_vsub_sym. exact Hnear.
Qed.

Lemma detection_is_symmetric_witness :
  In agent_A (_detect_in_radius [agent_A; agent_B; agent_D] agent_B 3.0).
Proof.
  apply detection_is_symmetric.
  - left. reflexivity.
  - rewrite detection_at_the_radius. left. reflexivity.
Defined.

(** ** The geometry of the policies *)

Lemma Rabs_le_bounds a b : Rabs a <= b -> - b <= a <= b.
Proof. unfold Rabs. destruct (Rcase_abs a); lra. Qed.

Lemma Rabs_le_linalg_norm x y :
  Rabs x <= linalg_norm (x, y) /\ Rabs y <= linalg_norm (x, y).
Proof.
  unfold linalg_norm. cbn [fst snd].
  rewrite <- (sqrt_Rsqr_abs x), <- (sqrt_Rsqr_abs y). unfold Rsqr.
  split; apply sqrt_le_1_alt; nra.
Qed.

Lemma linalg_norm_sqr v :
  linalg_norm v * linalg_norm v = fst v * fst v + snd v * snd v.
Proof. unfold linalg_norm. apply sqrt_sqrt. nra. Qed.

Lemma denominator_nonzero_norm direction :
  linalg_norm direction <> 0 -> denominator direction = linalg_norm direction.
Proof.
  intros H. unfold denominator. cbv zeta.
  now rewrite (proj2 (Reqb_false_iff _ _) H).
Qed.

Lemma normalized_in_square direction : in_square 1 (normalized direction).
Proof.
  destruct (Req_dec_T (linalg_norm direction) 0) as [Hz | Hnz].
  - destruct (normalized_zero_norm _ Hz) as [Hd Hn].
    rewrite Hn, Hd. unfold in_square, zeros2. cbn [fst snd]. lra.
  - unfold normalized, in_square. rewrite (denominator_nonzero_norm _ Hnz).
    destruct direction as [x y]. cbn [fst snd].
    pose proof (linalg_norm_nonneg (x, y)) as Hpos.
    destruct (Rabs_le_linalg_norm x y) as [Hx Hy].
    set (n := linalg_norm (x, y)) in *.
    assert (Hn : 0 < n) by lra.
    assert (Hinv : 0 < / n) by now apply Rinv_0_lt_compat.
    assert (Hone : n * / n = 1) by (apply Rinv_r; lra).
    apply Rabs_le_bounds in Hx. apply Rabs_le_bounds in Hy.
    unfold Rdiv. repeat split; nra.
Qed.

Lemma normalized_unit direction :
  linalg_norm direction <> 0 ->
  linalg_norm (normalized direction) = 1 /\
  direction = vscale (normalized direction) (linalg_norm direction).
Proof.
  intros Hnz. unfold normalized. rewrite (denominator_nonzero_norm _ Hnz).
  pose proof (linalg_norm_sqr direction) as Hsq.
  destruct direction as [x y]. cbn [fst snd] in *.
  set (n := linalg_norm (x, y)) in *. split.
  - unfold linalg_norm. cbn [fst snd].
    replace (x / n * (x / n) + y / n * (y / n)) with 1.
    + apply sqrt_1.
    + replace (x / n * (x / n) + y / n * (y / n))
        with ((x * x + y * y) / (n * n)) by (field; exact Hnz).
      rewrite <- Hsq. field. exact Hnz.
  - unfold vscale. cbn [fst snd]. f_equal; field; exact Hnz.
Qed.

Lemma vsub_zeros2 p q : vsub p q = zeros2 -> p = q.
Proof.
  destruct p as [px py], q as [qx qy]. unfold vsub, zeros2. cbn [fst snd].
  intros H. inversion H. f_equal; lra.
Qed.

Lemma pair_at_in_square draws b c :
  unit_samples draws -> 0 <= b -> in_square b (pair_at draws (- b) b c).
Proof.
  intros Hu Hb. unfold in_square, pair_at. cbn [fst snd].
  pose proof (Hu c). pose proof (Hu (S c)). repeat split; nra.
Qed.

(** X6. With a rival that does not stand on the agent's own spot, the
    attack vector is a unit vector plus a jitter of at most the chaos factor
    per component, and the unit vector points from the agent to the weakest
    rival: the rival sits at the agent's position plus their distance times
    that vector. *)
Theorem attack_points_at_weakest draws self first others c :
  unit_samples draws ->
  position (min_by_power first others) <> position self ->
  let weakest := min_by_power first others in
  let distance := linalg_norm (vsub (position weakest) (position self)) in
  exists u jitter,
    run (calculate_best_attack_vector draws self (first :: others)) c =
      inr (vadd u jitter, S (S c)) /\
    linalg_norm u = 1 /\
    0 < distance /\
    position weakest = vadd (position self) (vscale u distance) /\
    in_square chaos_factor jitter.
Proof.
  intros Hu Hapart weakest distance.
  assert (Hnz : distance <> 0).
  { intros Hz. apply Hapart. apply vsub_zeros2. now apply linalg_norm_zero. }
  exists (normalized (attack_direction self first others)),
         (pair_at draws (- chaos_factor) chaos_factor c).
  split; [apply run_calculate_best_attack_vector |].
  destruct (normalized_unit (attack_direction self first others) Hnz)
    as [Hunit Hdir].
  split; [exact Hunit |]. split.
  - pose proof (linalg_norm_nonneg (vsub (position weakest) (position self))).
    fold distance in H. lra.
  - split; [| apply pair_at_in_square; [exact Hu | unfold chaos_factor; lra]].
    fold weakest in Hdir |- *. unfold attack_direction in Hdir at 1.
    fold weakest in Hdir.
    change (linalg_norm (attack_direction self first others))
      with distance in Hdir.
    rewrite <- Hdir. unfold vadd, vsub. cbn [fst snd].
    destruct (position weakest), (position self). cbn [fst snd].
    f_equal; lra.
Qed.

Lemma attack_points_at_weakest_witness :
  exists u jitter,
    run (calculate_best_attack_vector half_draws agent_A [agent_B]) 0 =
      inr (vadd u jitter, 2%nat) /\
    linalg_norm u = 1.
Proof.
  destruct (attack_points_at_weakest half_draws agent_A agent_B [] 0)
    as (u & jitter & Hrun & Hunit & _).
  - intros k. unfold half_draws. lra.
  - cbn. intros H. inversion H. lra.
  - exists u, jitter. split; assumption.
Defined.

(** X7. With the rivals' centroid off the agent's own spot, the escape
    vector is a unit vector plus bounded jitter, and the unit vector points
    from the centroid to the agent. *)
Theorem escape_points_away_from_centroid draws self first others c :
  unit_samples draws ->
  centroid (map position (first :: others)) <> position self ->
  let threat_center := centroid (map position (first :: others)) in
  let distance := linalg_norm (vsub (position self) threat_center) in
  exists u jitter,
    run (find_safest_escape_route draws self (first :: others)) c =
      inr (vadd u jitter, S (S c)) /\
    linalg_norm u = 1 /\
    0 < distance /\
    position self = vadd threat_center (vscale u distance) /\
    in_square chaos_factor jitter.
Proof.
  intros Hu Hapart threat_center distance.
  assert (Hnz : distance <> 0).
  { intros Hz. apply Hapart. symmetry. apply vsub_zeros2.
    now apply linalg_norm_zero. }
  exists (normalized (escape_direction self (first :: others))),
         (pair_at draws (- chaos_factor) chaos_factor c).
  split; [apply run_find_safest_escape_route |].
  destruct (normalized_unit (escape_direction self (first :: others)) Hnz)
    as [Hunit Hdir].
  split; [exact Hunit |]. split.
  - pose proof (linalg_norm_nonneg (vsub (position self) threat_center)).
    fold distance in H. lra.
  - split; [| apply pair_at_in_square; [exact Hu | unfold chaos_factor; lra]].
    change (linalg_norm (escape_direction self (first :: others)))
      with distance in Hdir.
    rewrite <- Hdir. unfold escape_direction. fold threat_center.
    unfold vadd, vsub. cbn [fst snd].
    destruct threat_center, (position self). cbn [fst snd].
    f_equal; lra.
Qed.

Lemma escape_points_away_from_centroid_witness :
  exists u jitter,
    run (find_safest_escape_route half_draws agent_B [agent_A]) 0 =
      inr (vadd u jitter, 2%nat) /\
    linalg_norm u = 1.
Proof.
  destruct (escape_points_away_from_centroid half_draws agent_B agent_A [] 0)
    as (u & jitter & Hrun & Hunit & _).
  - intros k. unfold half_draws. lra.
  - unfold centroid. cbn. intros H. inversion H. lra.
  - exists u, jitter. split; assumption.
Defined.

(** ** One agent across a tick *)

Lemma loop_trace_turn_of {draws tau done todo c new c'} :
  loop_trace draws tau done todo c new c' ->
  Forall2 (turn_of draws tau) todo new.
Proof.
  induction 1 as [| done agent rest c s v c1 new c' Hd _ IH]; constructor;
    [| exact IH].
  exists (done ++ agent :: rest), c, s, v, c1. split; [exact Hd | reflexivity].
Qed.

Lemma rebalance_Forall2 agents :
  Forall2 (fun mid after => after = mid \/ after = bonus mid)
          agents (_rebalance_strategic_equilibrium agents).
Proof.
  unfold _rebalance_strategic_equilibrium.
  destruct (Rltb (total_power agents) 10);
    induction agents as [| a agents IH]; cbn [map]; constructor; auto.
Qed.

Lemma Forall2_compose {A B C : Type} (P : A -> B -> Prop) (Q : B -> C -> Prop)
      l1 l2 :
  Forall2 P l1 l2 ->
  forall l3, Forall2 Q l2 l3 ->
             Forall2 (fun a c => exists b, P a b /\ Q b c) l1 l3.
Proof.
  induction 1 as [| a b l1 l2 Hab _ IH]; intros l3 H23;
    inversion H23; subst; constructor; eauto.
Qed.

Lemma time_step_agents {draws tau bf c bf' c'} :
  run (time_step draws tau bf) c = inr (bf', c') ->
  Forall2 (tick_of draws tau) (agents bf) (agents bf').
Proof.
  intros Hrun. destruct (time_step_inv Hrun) as (mid & Htrace & ->).
  cbn [agents].
  exact (Forall2_compose _ _ _ _ (loop_trace_turn_of Htrace) _
           (rebalance_Forall2 mid)).
Qed.

Lemma defensive_vector_in_square draws c :
  unit_samples draws -> in_square (1 + chaos_factor) (defensive_vector draws c).
Proof.
  intros Hu. unfold defensive_vector.
  destruct (normalized_in_square (defensive_direction draws c)) as [Hx Hy].
  unfold in_square, vadd, pair_at, chaos_factor in *. cbn [fst snd] in *.
  pose proof (Hu (S (S c))). pose proof (Hu (S (S (S c)))).
  repeat split; nra.
Qed.

Lemma vadd_in_square u j :
  in_square 1 u -> in_square chaos_factor j ->
  in_square (1 + chaos_factor) (vadd u j).
Proof.
  unfold in_square, vadd. cbn [fst snd]. intros [? ?] [? ?].
  repeat split; lra.
Qed.

Lemma vector_of_in_square draws s self opponents c :
  unit_samples draws ->
  in_square (1 + chaos_factor) (vector_of draws s self opponents c).
Proof.
  intros Hu. unfold vector_of.
  assert (Hj : in_square chaos_factor
                         (pair_at draws (- chaos_factor) chaos_factor c))
    by (apply pair_at_in_square; [exact Hu | unfold chaos_factor; lra]).
  destruct opponents as [| first others];
    [now apply defensive_vector_in_square |].
  destruct s.
  - apply vadd_in_square; [apply normalized_in_square | exact Hj].
  - now apply defensive_vector_in_square.
  - apply vadd_in_square; [apply normalized_in_square | exact Hj].
Qed.

Lemma clip_moves_closer x p :
  0 <= p <= 10 -> Rabs (Rmin (Rmax x 0) 10 - p) <= Rabs (x - p).
Proof.
  intros Hp. unfold Rmin, Rmax, Rabs.
  repeat destruct (Rle_dec _ _); repeat destruct (Rcase_abs _); lra.
Qed.

Lemma after_turn_within draws agent s v c1 :
  unit_samples draws ->
  in_arena (position agent) ->
  in_square (1 + chaos_factor) v ->
  within 0.505 (position agent) (position (after_turn draws agent s v c1)).
Proof.
  intros Hu [Hx Hy] [Hvx Hvy].
  unfold after_turn, _update_power_dynamics, within, clip, vadd, vscale,
    pair_at, chaos_factor in *.
  cbn [position set_power set_position fst snd].
  pose proof (Hu c1). pose proof (Hu (S c1)).
  assert (Hs : 0.25 <= speed_factor s <= 0.35) by (destruct s; cbn; lra).
  split.
  - eapply Rle_trans; [apply clip_moves_closer; exact Hx |].
    apply Rabs_le. split; nra.
  - eapply Rle_trans; [apply clip_moves_closer; exact Hy |].
    apply Rabs_le. split; nra.
Qed.

(** X8. An agent moves at most 0.505 per coordinate in a tick (speed at
    most 0.35 times a policy vector of at most 1.3 per component, plus a
    drift of at most 0.05), provided the samples lie in [0,1) and the agent
    starts inside the arena. *)
Theorem displacement_per_tick draws tau bf c bf' c' :
  unit_samples draws ->
  Forall (fun a => in_arena (position a)) (agents bf) ->
  run (time_step draws tau bf) c = inr (bf', c') ->
  Forall2 (fun before after => within 0.505 (position before) (position after))
          (agents bf) (agents bf').
Proof.
  intros Hu Harena Hrun. pose proof (time_step_agents Hrun) as Hticks.
  revert Harena. induction Hticks as [| before after l l' Htick _ IH];
    intros Harena; constructor.
  - inversion Harena as [| ? ? Hin _]; subst.
    destruct Htick as (mid & (all & c0 & s & v & c1 & Hd & ->) & Hafter).
    assert (Hpos : position after = position (after_turn draws before s v c1))
      by (destruct Hafter as [-> | ->]; reflexivity).
    rewrite Hpos. apply after_turn_within; [exact Hu | exact Hin |].
    destruct (decide_inv Hd) as (_ & -> & _).
    now apply vector_of_in_square.
  - apply IH. now inversion Harena.
Qed.

Lemma displacement_per_tick_witness :
  exists bf' c',
    run (time_step half_draws 1.0 scenario) 0 = inr (bf', c') /\
    Forall2 (fun before after => within 0.505 (position before) (position after))
            (agents scenario) (agents bf').
Proof.
  destruct (time_step_returns half_draws 1.0 scenario 0 scenario_nonzero)
    as (bf' & c' & Hrun).
  exists bf', c'. split; [exact Hrun |].
  apply (displacement_per_tick half_draws 1.0 scenario 0 bf' c').
  - intros k. unfold half_draws. lra.
  - repeat constructor; cbn; lra.
  - exact Hrun.
Defined.

(** X9. Over a whole tick, correction included, the power of an agent
    that starts at 0.1 or more falls by at most 0.02 and rises by at most
    0.03. *)
Theorem power_change_per_tick draws tau bf c bf' c' :
  Forall (fun a => 0.1 <= power a) (agents bf) ->
  run (time_step draws tau bf) c = inr (bf', c') ->
  Forall2 (fun before after =>
             power before - 0.02 <= power after <= power before + 0.03)
          (agents bf) (agents bf').
Proof.
  intros Hfloor Hrun. pose proof (time_step_agents Hrun) as Hticks.
  revert Hfloor. induction Hticks as [| before after l l' Htick _ IH];
    intros Hfloor; constructor.
  - inversion Hfloor as [| ? ? Hp _]; subst.
    destruct Htick as (mid & (all & c0 & s & v & c1 & _ & ->) & Hafter).
    destruct (after_turn_taken draws before s v c1) as ((_ & _ & Hmid & _) & Hs & _).
    rewrite Hs in Hmid.
    assert (Hd : 0.005 <= decay s <= 0.02) by (destruct s; cbn; lra).
    assert (Hm : power before - 0.02 <= power (after_turn draws before s v c1)
                 <= power before).
    { rewrite Hmid. unfold Rmax.
      destruct (Rle_dec 0.1 (power before - decay s)); lra. }
    destruct Hafter as [-> | ->]; cbn [bonus set_power power]; lra.
  - apply IH. now inversion Hfloor.
Qed.

Lemma power_change_per_tick_witness :
  exists bf' c',
    run (time_step half_draws 1.0 scenario) 0 = inr (bf', c') /\
    Forall2 (fun before after =>
               power before - 0.02 <= power after <= power before + 0.03)
            (agents scenario) (agents bf').
Proof.
  destruct (time_step_returns half_draws 1.0 scenario 0 scenario_nonzero)
    as (bf' & c' & Hrun).
  exists bf', c'. split; [exact Hrun |].
  apply (power_change_per_tick half_draws 1.0 scenario 0 bf' c').
  - repeat constructor; cbn; lra.
  - exact Hrun.
Defined.
(** ** The correction and the total *)

Lemma total_power_cons a l : total_power (a :: l) = power a + total_power l.
Proof. apply sum_power_cons. Qed.

Lemma total_power_bonus l :
  total_power (map bonus l) = total_power l + 0.03 * INR (length l).
Proof.
  induction l as [| a l IH].
  - unfold total_power. cbn. lra.
  - cbn [map length]. rewrite !total_power_cons, IH, S_INR. cbn. lra.
Qed.

(** X10. When the correction fires it lifts the total power by exactly
    0.03 per agent, whether or not that brings the total back to 10; it
    never lowers the total. *)
Theorem correction_lifts_total agents :
  (total_power agents < 10 ->
   total_power (_rebalance_strategic_equilibrium agents) =
     total_power agents + 0.03 * INR (length agents)) /\
  total_power agents <= total_power (_rebalance_strategic_equilibrium agents).
Proof.
  split.
  - intros H. rewrite (rebalance_fires _ H). apply total_power_bonus.
  - destruct (Rlt_dec (total_power agents) 10) as [H | H].
    + rewrite (rebalance_fires _ H), total_power_bonus.
      pose proof (pos_INR (length agents)). lra.
    + rewrite rebalance_idle; lra.
Qed.

Lemma correction_lifts_total_witness :
  total_power (_rebalance_strategic_equilibrium (agents scenario)) =
    total_power (agents scenario) + 0.03 * INR 2.
Proof.
  apply (proj1 (correction_lifts_total (agents scenario))).
  unfold total_power. cbn. lra.
Defined.

(** ** Edge cases of the tick *)

(** X11. A battlefield without agents can be stepped: every tick returns,
    draws no sample, leaves the population empty and only advances the
    clock. *)
Theorem empty_battlefield_only_counts draws taus k c :
  run (simulate draws taus (mkBattlefield [] k)) c =
  inr (map (fun i => mkBattlefield [] (k + Z.of_nat i)) (seq 1 (length taus)), c).
Proof.
  revert k. induction taus as [| tau later IH]; intros k; [reflexivity |].
  assert (Hstep : run (time_step draws tau (mkBattlefield [] k)) c =
                  inr (mkBattlefield [] (k + 1), c)).
  { rewrite run_time_step. cbn [agents agents_loop]. rewrite run_ret.
    unfold _rebalance_strategic_equilibrium.
    destruct (Rltb (total_power []) 10); reflexivity. }
  rewrite run_simulate_cons, Hstep, IH. cbn [length seq map].
  rewrite <- (seq_shift (length later) 1), map_map.
  do 3 f_equal. apply map_ext. intros i. f_equal. lia.
Qed.

(** X12. A threshold of zero or less leaves no room for attack or
    maneuver: every agent that sees a rival retreats (powers positive). *)
Theorem nonpositive_threshold_retreats draws tau self first others c :
  tau <= 0 ->
  0 < power self ->
  Forall (fun op => 0 < power op) (first :: others) ->
  run (decide draws tau self (first :: others)) c =
  inr ((retreat, escape_vector draws self (first :: others) c,
        decided self retreat (escape_vector draws self (first :: others) c)),
       S (S c)).
Proof.
  intros Htau Hself Hopps.
  assert (Hnz : power self <> 0) by lra.
  rewrite (run_decide_opponents_at draws tau self first others c Hnz).
  cbv zeta.
  assert (Hpos : 0 < sum_power (first :: others) / power self)
    by (apply Rdiv_lt_0_compat; [now apply sum_power_pos | exact Hself]).
  assert (Hs : stance_of tau (sum_power (first :: others) / power self) = retreat).
  { unfold stance_of.
    rewrite (proj2 (Rltb_false_iff _ _)) by lra.
    rewrite (proj2 (Rleb_false_iff (sum_power (first :: others) / power self)
                                   (1.4 * tau))) by lra.
    rewrite andb_false_r. reflexivity. }
  rewrite Hs. reflexivity.
Qed.

Lemma nonpositive_threshold_retreats_witness :
  run (decide half_draws (-1) agent_A [agent_B]) 0 =
  inr ((retreat, escape_vector half_draws agent_A [agent_B] 0,
        decided agent_A retreat (escape_vector half_draws agent_A [agent_B] 0)),
       2%nat).
Proof.
  apply nonpositive_threshold_retreats.
  - lra.
  - cbn. lra.
  - repeat constructor; cbn; lra.
Defined.

(** ** A single rival *)

Lemma centroid_single p : centroid [p] = p.
Proof.
  destruct p as [x y]. unfold centroid, vadd, zeros2.
  cbn [fold_left length fst snd INR]. f_equal; field.
Qed.

Lemma linalg_norm_vneg v : linalg_norm (vneg v) = linalg_norm v.
Proof. unfold linalg_norm, vneg. cbn [fst snd]. f_equal. ring. Qed.

Lemma normalized_vneg v : normalized (vneg v) = vneg (normalized v).
Proof.
  unfold normalized, denominator. cbv zeta. rewrite linalg_norm_vneg.
  unfold vneg. cbn [fst snd].
  assert (H : (if Reqb (linalg_norm v) 0 then 1 else linalg_norm v) <> 0)
    by apply denominator_nonzero.
  f_equal; field; exact H.
Qed.

Lemma vneg_vsub p q : vneg (vsub q p) = vsub p q.
Proof. unfold vneg, vsub. cbn [fst snd]. f_equal; ring. Qed.

(** X13. Facing a single rival, fleeing is attacking reversed.  From the
    same cursor both policies add the same jitter, the next two samples
    scaled to [-0.3, 0.3), to opposite base vectors: the base of the attack
    is the vector from the agent to the rival divided by its length (left as
    it is, the zero vector, when the two stand on the same spot), and the
    base of the escape is its negative.  The base has length 1 unless the
    two stand on the same spot. *)
Theorem escape_reverses_attack draws self rival c :
  let jitter :=
    (- chaos_factor + (chaos_factor - - chaos_factor) * draws c,
     - chaos_factor + (chaos_factor - - chaos_factor) * draws (S c)) in
  let to_rival := vsub (position rival) (position self) in
  let distance := linalg_norm to_rival in
  let u :=
    if Reqb distance 0 then to_rival
    else (fst to_rival / distance, snd to_rival / distance) in
  run (calculate_best_attack_vector draws self [rival]) c =
    inr (vadd u jitter, S (S c)) /\
  run (find_safest_escape_route draws self [rival]) c =
    inr (vadd (vneg u) jitter, S (S c)) /\
  (distance = 0 -> u = zeros2) /\
  (distance <> 0 -> linalg_norm u = 1).
Proof.
  intros jitter to_rival distance u.
  assert (Hu : normalized to_rival = u).
  { unfold u. destruct (Reqb distance 0) eqn:Hd.
    - apply Reqb_true_iff in Hd. now apply normalized_zero_norm.
    - apply Reqb_false_iff in Hd. unfold normalized.
      now rewrite (denominator_nonzero_norm _ Hd). }
  split; [| split; [| split]].
  - rewrite run_calculate_best_attack_vector.
    unfold attack_direction, min_by_power. cbn [fold_left].
    fold to_rival. rewrite Hu. reflexivity.
  - rewrite run_find_safest_escape_route. unfold escape_direction.
    cbn [map]. rewrite centroid_single.
    rewrite <- (vneg_vsub (position self) (position rival)).
    fold to_rival. rewrite normalized_vneg, Hu. reflexivity.
  - intros Hd. unfold u. rewrite (proj2 (Reqb_true_iff _ _) Hd).
    now apply linalg_norm_zero.
  - intros Hd. rewrite <- Hu. now apply normalized_unit.
Qed.

Lemma escape_reverses_attack_witness :
  linalg_norm
    (if Reqb (linalg_norm (vsub (position agent_B) (position agent_A))) 0
     then vsub (position agent_B) (position agent_A)
     else (fst (vsub (position agent_B) (position agent_A)) /
             linalg_norm (vsub (position agent_B) (position agent_A)),
           snd (vsub (position agent_B) (position agent_A)) /
             linalg_norm (vsub (position agent_B) (position agent_A)))) = 1.
Proof.
  apply (escape_reverses_attack half_draws agent_A agent_B 0).
  assert (H : linalg_norm (vsub (position agent_B) (position agent_A)) = 1).
  { unfold linalg_norm, vsub. cbn [position agent_A agent_B fst snd].
    replace ((1 - 0) * (1 - 0) + (0 - 0) * (0 - 0)) with 1 by lra.
    apply sqrt_1. }
  rewrite H. lra.
Defined.

(** * The trails of the display *)

Lemma trail_set_same h id trail : trail_set h id trail id = Some trail.
Proof. unfold trail_set. rewrite Z.eqb_refl. reflexivity. Qed.

Lemma trail_set_other h id trail k : k <> id -> trail_set h id trail k = h k.
Proof.
  intros H. unfold trail_set. apply Z.eqb_neq in H. rewrite H. reflexivity.
Qed.

Lemma trail_set_none {h id trail k} :
  h id <> None -> (trail_set h id trail k = None <-> h k = None).
Proof.
  intros Hid. destruct (Z.eq_dec k id) as [-> | Hne].
  - rewrite trail_set_same. split; [discriminate | contradiction].
  - rewrite trail_set_other by exact Hne. reflexivity.
Qed.

Lemma record_position_some {h agent trail} :
  h (agent_id agent) = Some trail ->
  record_position h agent =
  Some (trail_set h (agent_id agent) (keep_recent (trail ++ [position agent]))).
Proof. intros H. unfold record_position. rewrite H. reflexivity. Qed.

Lemma record_position_none h agent :
  record_position h agent = None <-> h (agent_id agent) = None.
Proof.
  unfold record_position. destruct (h (agent_id agent)); split;
    intros; congruence.
Qed.

(** X14. Redrawing fails with a missing key exactly when some agent's id
    has no trail in the dictionary; trails recorded for the agents before it
    do not change that. *)
Theorem visualize_fails_on_missing_id agents h :
  visualize_battlefield agents h = None <->
  exists a, In a agents /\ h (agent_id a) = None.
Proof.
  revert h. induction agents as [| agent rest IH]; intros h.
  - cbn. split; [discriminate | intros (a & [] & _)].
  - cbn [visualize_battlefield].
    destruct (h (agent_id agent)) as [trail |] eqn:Hkey.
    + rewrite (record_position_some Hkey), IH.
      assert (Hpresent : h (agent_id agent) <> None) by congruence.
      split.
      * intros (a & Hin & Hnone). exists a. split; [now right |].
        now apply (trail_set_none Hpresent) in Hnone.
      * intros (a & [<- | Hin] & Hnone); [congruence |].
        exists a. split; [exact Hin |].
        now apply (trail_set_none Hpresent).
    + rewrite (proj2 (record_position_none h agent) Hkey).
      split; [| reflexivity]. intros _. exists agent. split; [now left | exact Hkey].
Qed.

Lemma visualize_battlefield_spec agents :
  forall h,
    NoDup (map agent_id agents) ->
    (forall a, In a agents -> h (agent_id a) <> None) ->
    exists h',
      visualize_battlefield agents h = Some h' /\
      (forall a trail,
          In a agents -> h (agent_id a) = Some trail ->
          h' (agent_id a) = Some (keep_recent (trail ++ [position a]))) /\
      (forall k, ~ In k (map agent_id agents) -> h' k = h k).
Proof.
  induction agents as [| agent rest IH]; intros h Hnodup Hkeys.
  - exists h. split; [reflexivity |].
    split; [intros a trail [] | reflexivity].
  - cbn [map] in Hnodup. inversion Hnodup as [| ? ? Hfresh Hrest]; subst.
    destruct (h (agent_id agent)) as [trail |] eqn:Hkey;
      [| exfalso; apply (Hkeys agent); [now left | exact Hkey]].
    set (h1 := trail_set h (agent_id agent)
                         (keep_recent (trail ++ [position agent]))).
    destruct (IH h1 Hrest) as (h' & Hrun & Hin' & Hout').
    { intros a Hin. unfold h1. intros Hnone.
      assert (Hpresent : h (agent_id agent) <> None) by congruence.
      apply (trail_set_none Hpresent) in Hnone.
      exact (Hkeys a (or_intror Hin) Hnone). }
    exists h'. cbn [visualize_battlefield].
    rewrite (record_position_some Hkey). fold h1.
    split; [exact Hrun |]. split.
    + intros a t [<- | Hin] Ht.
      * rewrite (Hout' _ Hfresh). unfold h1. rewrite trail_set_same.
        congruence.
      * apply Hin'; [exact Hin |]. unfold h1.
        rewrite trail_set_other; [exact Ht |].
        intros Heq. apply Hfresh. rewrite <- Heq. now apply in_map.
    + intros k Hk. cbn [map In] in Hk.
      rewrite Hout' by tauto. unfold h1.
      apply trail_set_other. intros ->. tauto.
Qed.

Lemma keep_recent_length trail p :
  (length trail <= 30)%nat ->
  length (keep_recent (trail ++ [p])) = Nat.min (length trail + 1) 30.
Proof.
  intros H. unfold keep_recent. rewrite length_app. cbn [length].
  destruct (Nat.ltb_spec 30 (length trail + 1)) as [Hover | Hfits].
  - destruct trail as [| x trail]; cbn [length] in *; [lia |].
    cbn [app tl]. rewrite length_app. cbn [length]. lia.
  - rewrite length_app. cbn [length]. lia.
Qed.

Lemma keep_recent_last trail p : last (keep_recent (trail ++ [p])) zeros2 = p.
Proof.
  unfold keep_recent. rewrite length_app. cbn [length].
  destruct (Nat.ltb_spec 30 (length trail + 1)) as [Hover | Hfits];
    [| apply last_last].
  destruct trail as [| x trail]; cbn [length] in *; [lia |].
  cbn [app tl]. apply last_last.
Qed.

(** X15. One redraw over agents with distinct ids, each with a trail of at
    most 30 entries, succeeds; afterwards every agent's trail still has at
    most 30 entries, ends with the agent's position, and keeps the previous
    entries in order (minus the oldest when the trail was full); trails of
    other ids are left alone. *)
Theorem visualize_keeps_trails_bounded agents h :
  NoDup (map agent_id agents) ->
  (forall a, In a agents ->
             exists trail, h (agent_id a) = Some trail /\
                           (length trail <= 30)%nat) ->
  exists h',
    visualize_battlefield agents h = Some h' /\
    (forall a trail,
        In a agents -> h (agent_id a) = Some trail ->
        exists trail',
          h' (agent_id a) = Some trail' /\
          (length trail' <= 30)%nat /\
          last trail' zeros2 = position a /\
          (trail' = trail ++ [position a] \/
           (length trail = 30%nat /\ trail' = tl trail ++ [position a]))) /\
    (forall k, ~ In k (map agent_id agents) -> h' k = h k).
Proof.
  intros Hnodup Hkeys.
  destruct (visualize_battlefield_spec agents h Hnodup) as (h' & Hrun & Hin & Hout).
  { intros a Ha. destruct (Hkeys a Ha) as (t & Ht & _). congruence. }
  exists h'. split; [exact Hrun |]. split; [| exact Hout].
  intros a trail Ha Ht. destruct (Hkeys a Ha) as (t & Ht' & Hlen).
  assert (t = trail) by congruence. subst t.
  exists (keep_recent (trail ++ [position a])).
  split; [now apply Hin |].
  split; [rewrite keep_recent_length by exact Hlen; lia |].
  split; [apply keep_recent_last |].
  unfold keep_recent. rewrite length_app. cbn [length].
  destruct (Nat.ltb_spec 30 (length trail + 1)) as [Hover | Hfits];
    [right | now left].
  split; [lia |]. destruct trail as [| x trail]; cbn [length] in *; [lia |].
  reflexivity.
Qed.

Lemma visualize_keeps_trails_bounded_witness :
  exists h',
    visualize_battlefield (agents scenario)
                          (trail_history_init (agents scenario)) = Some h' /\
    h' 0%Z = Some [(0, 0); (0, 0)] /\
    h' 1%Z = Some [(1, 0); (1, 0)].
Proof.
  destruct (visualize_keeps_trails_bounded
              (agents scenario) (trail_history_init (agents scenario)))
    as (h' & Hrun & Hin & _).
  - cbn. repeat constructor; cbn; intuition lia.
  - intros a [<- | [<- | []]]; eexists; (split; [reflexivity | cbn; lia]).
  - exists h'. split; [exact Hrun |]. split.
    + destruct (Hin agent_A [(0, 0)]) as (t & Ht & _ & _ & [-> | [Hl _]]);
        [left; reflexivity | reflexivity | exact Ht | discriminate].
    + destruct (Hin agent_B [(1, 0)]) as (t & Ht & _ & _ & [-> | [Hl _]]);
        [right; left; reflexivity | reflexivity | exact Ht | discriminate].
Defined.

Lemma trail_history_init_spec agents :
  forall h0,
    NoDup (map agent_id agents) ->
    let h := fold_left (fun h agent => trail_set h (agent_id agent) [position agent])
                       agents h0 in
    (forall a, In a agents -> h (agent_id a) = Some [position a]) /\
    (forall k, ~ In k (map agent_id agents) -> h k = h0 k).
Proof.
  induction agents as [| agent rest IH]; intros h0 Hnodup; cbv zeta.
  - split; [intros a [] | reflexivity].
  - cbn [map] in Hnodup. inversion Hnodup as [| ? ? Hfresh Hrest]; subst.
    cbn [fold_left].
    destruct (IH (trail_set h0 (agent_id agent) [position agent]) Hrest)
      as [Hin Hout].
    split.
    + intros a [<- | Ha]; [| now apply Hin].
      rewrite (Hout _ Hfresh). apply trail_set_same.
    + intros k Hk. cbn [map In] in Hk. rewrite Hout by tauto.
      apply trail_set_other. intros ->. tauto.
Qed.

Lemma last_nonempty_default {A : Type} (l : list A) :
  forall x d d', last (x :: l) d = last (x :: l) d'.
Proof.
  induction l as [| y l IH]; intros x d d'; [reflexivity |].
  change (last (y :: l) d = last (y :: l) d'). apply IH.
Qed.

Lemma last_cons_default {A : Type} (x : A) l d : last (x :: l) d = last l x.
Proof.
  destruct l as [| y l]; [reflexivity |].
  change (last (y :: l) d = last (y :: l) x). apply last_nonempty_default.
Qed.

Lemma replay_tracks trajectory :
  forall h bf k,
    NoDup (map agent_id (agents bf)) ->
    Forall (fun b => map agent_id (agents b) = map agent_id (agents bf))
           trajectory ->
    trails_track h bf k ->
    exists h',
      replay trajectory h = Some h' /\
      trails_track h' (last trajectory bf) (k + length trajectory).
Proof.
  induction trajectory as [| b later IH]; intros h bf k Hnodup Hids Htrack.
  - exists h. cbn [replay last length]. rewrite Nat.add_0_r. split; auto.
  - inversion Hids as [| ? ? Hb Hlater]; subst.
    assert (Hnodup_b : NoDup (map agent_id (agents b))) by now rewrite Hb.
    assert (Hold : forall a, In a (agents b) ->
                             exists trail, h (agent_id a) = Some trail /\
                                           length trail = Nat.min k 30).
    { intros a Ha. apply (in_map agent_id) in Ha. rewrite Hb in Ha.
      apply in_map_iff in Ha. destruct Ha as (a0 & Hid & Ha0).
      destruct (Htrack a0 Ha0) as (t & Ht & Hlen & _).
      exists t. rewrite <- Hid. split; assumption. }
    destruct (visualize_battlefield_spec (agents b) h Hnodup_b)
      as (h1 & Hrun & Hin & _).
    { intros a Ha. destruct (Hold a Ha) as (t & Ht & _). congruence. }
    assert (Htrack1 : trails_track h1 b (k + 1)).
    { intros a Ha. destruct (Hold a Ha) as (t & Ht & Hlen).
      exists (keep_recent (t ++ [position a])).
      split; [now apply Hin |]. split; [| apply keep_recent_last].
      rewrite keep_recent_length by lia. lia. }
    destruct (IH h1 b (k + 1)%nat Hnodup_b) as (h' & Hreplay & Htrack').
    + revert Hlater. apply Forall_impl. intros b' Hb'. congruence.
    + exact Htrack1.
    + exists h'. cbn [replay]. rewrite Hrun. split; [exact Hreplay |].
      rewrite last_cons_default. cbn [length].
      replace (k + S (length later))%nat with (k + 1 + length later)%nat by lia.
      exact Htrack'.
Qed.

(** X16. The display keeps up with the simulation.  Starting from the
    dictionary built at start-up for agents with distinct ids, redrawing
    after every tick of a run never meets a missing key, and after n frames
    each agent's trail holds min(n + 1, 30) positions, the last of which is
    the agent's current position. *)
Theorem trails_follow_the_run draws taus bf c trajectory c' :
  NoDup (map agent_id (agents bf)) ->
  run (simulate draws taus bf) c = inr (trajectory, c') ->
  exists h,
    replay trajectory (trail_history_init (agents bf)) = Some h /\
    trails_track h (last trajectory bf) (length taus + 1).
Proof.
  intros Hnodup Hrun.
  destruct (simulate_population_core _ _ _ _ _ _ Hrun) as [Hpop Hcount].
  assert (Hlen : length trajectory = length taus).
  { rewrite <- (length_map time_step_count), Hcount, length_map, length_seq.
    reflexivity. }
  destruct (replay_tracks trajectory (trail_history_init (agents bf)) bf 1
                          Hnodup Hpop) as (h & Hreplay & Htrack).
  - intros a Ha. exists [position a].
    destruct (trail_history_init_spec (agents bf) trail_empty Hnodup) as [Hin _].
    split; [now apply Hin |]. split; reflexivity.
  - exists h. split; [exact Hreplay |].
    rewrite Hlen in Htrack.
    replace (length taus + 1)%nat with (1 + length taus)%nat by lia.
    exact Htrack.
Qed.

Lemma trails_follow_the_run_witness :
  exists trajectory c' h,
    run (simulate half_draws [1.0; 1.5] scenario) 0 = inr (trajectory, c') /\
    replay trajectory (trail_history_init (agents scenario)) = Some h /\
    trails_track h (last trajectory scenario) 3.
Proof.
  destruct (simulate_invariant half_draws [1.0; 1.5] scenario 0
              scenario_nonzero) as (trajectory & c' & Hrun & _).
  destruct (trails_follow_the_run half_draws [1.0; 1.5] scenario 0
                                  trajectory c') as (h & Hreplay & Htrack).
  - cbn. repeat constructor; cbn; intuition lia.
  - exact Hrun.
  - exists trajectory, c', h. repeat split; assumption.
Defined.
(** * What [decide] and the constructor depend on *)

Lemma min_by_power_reads first1 first2 others1 :
  forall others2,
    power first1 = power first2 ->
    position first1 = position first2 ->
    map power others1 = map power others2 ->
    map position others1 = map position others2 ->
    power (min_by_power first1 others1) = power (min_by_power first2 others2) /\
    position (min_by_power first1 others1) =
      position (min_by_power first2 others2).
Proof.
  unfold min_by_power. revert first1 first2.
  induction others1 as [| x others1 IH]; intros first1 first2 [| y others2]
    Hp Hq Hps Hqs; cbn [map] in Hps, Hqs; try discriminate.
  - cbn [fold_left]. split; assumption.
  - inversion Hps as [[Hpx Hps']]. inversion Hqs as [[Hqx Hqs']].
    cbn [fold_left]. rewrite Hpx, Hp.
    destruct (Rltb (power y) (power first2)); now apply IH.
Qed.

Lemma vector_of_reads draws s self1 self2 opponents1 opponents2 c :
  position self1 = position self2 ->
  map power opponents1 = map power opponents2 ->
  map position opponents1 = map position opponents2 ->
  vector_of draws s self1 opponents1 c = vector_of draws s self2 opponents2 c.
Proof.
  intros Hpos Hps Hqs.
  destruct opponents1 as [| f1 o1], opponents2 as [| f2 o2];
    cbn [map] in Hps, Hqs; try discriminate; [reflexivity |].
  unfold vector_of. destruct s; [| reflexivity |].
  - unfold attack_vector, attack_direction.
    inversion Hps as [[Hp Hps']]. inversion Hqs as [[Hq Hqs']].
    destruct (min_by_power_reads f1 f2 o1 o2 Hp Hq Hps' Hqs') as [_ Hw].
    rewrite Hw, Hpos. reflexivity.
  - unfold escape_vector, escape_direction. cbn [map].
    rewrite Hqs, Hpos. reflexivity.
Qed.

(** X24. [decide] is memoryless and looks at nothing but numbers on the
    map: its stance, its vector and the samples it consumes are fixed by the
    agent's own power and position and by the rivals' powers and positions.
    The previous stance and vector, the ids and the strategy types play no
    part. *)
Theorem decide_reads_power_and_position
        draws tau self1 self2 opponents1 opponents2 c s v self1' c1 :
  power self1 = power self2 ->
  position self1 = position self2 ->
  map power opponents1 = map power opponents2 ->
  map position opponents1 = map position opponents2 ->
  run (decide draws tau self1 opponents1) c = inr ((s, v, self1'), c1) ->
  run (decide draws tau self2 opponents2) c =
    inr ((s, v, decided self2 s v), c1).
Proof.
  intros Hpow Hpos Hps Hqs Hrun.
  destruct (decide_inv Hrun) as (_ & Hv & Hc1 & Hcase).
  rewrite (vector_of_reads draws s self1 self2 opponents1 opponents2 c
                           Hpos Hps Hqs) in Hv.
  destruct opponents1 as [| f1 o1], opponents2 as [| f2 o2];
    cbn [map] in Hps; try discriminate.
  - subst. apply run_decide_no_opponents.
  - destruct Hcase as [Hnz Hs].
    assert (Hnz2 : power self2 <> 0) by congruence.
    rewrite (run_decide_opponents_at draws tau self2 f2 o2 c Hnz2). cbv zeta.
    assert (Hsame : stance_of tau (sum_power (f2 :: o2) / power self2) = s).
    { rewrite Hs. unfold sum_power. cbn [map]. rewrite Hps, Hpow.
      reflexivity. }
    rewrite Hsame. subst v c1. reflexivity.
Qed.

Lemma decide_reads_power_and_position_witness :
  run (decide half_draws 1.0
              (mkAgent 7 1.0 (0, 0) passive retreat (1, 1))
              [mkAgent 9 0.4 (1, 0) active attack (2, 2)]) 0 =
  inr ((attack, attack_vector half_draws agent_A agent_B [] 0,
        decided (mkAgent 7 1.0 (0, 0) passive retreat (1, 1)) attack
                (attack_vector half_draws agent_A agent_B [] 0)),
       2%nat).
Proof.
  apply (decide_reads_power_and_position
           half_draws 1.0 agent_A _ [agent_B] _ 0 attack _
           (decided agent_A attack (attack_vector half_draws agent_A agent_B [] 0)));
    try reflexivity.
  apply scenario_A_attacks.
Defined.

(** X25. Construction draws exactly four samples per agent (strategy,
    power, two coordinates) and builds as many agents as asked for; a
    negative count behaves like zero: no agent, no sample. *)
Theorem construction_consumes_four_samples_each draws num_agents c :
  exists bf,
    run (Battlefield_init draws num_agents) c =
      inr (bf, (4 * Z.to_nat num_agents + c)%nat) /\
    length (agents bf) = Z.to_nat num_agents /\
    ((num_agents <= 0)%Z -> agents bf = []).
Proof.
  eexists. split; [| split].
  - rewrite run_Battlefield_init. unfold range.
    rewrite length_map, length_seq. reflexivity.
  - cbn [agents]. rewrite <- (length_map agent_id), new_agents_ids.
    unfold range. rewrite length_map, length_seq. reflexivity.
  - intros Hneg. cbn [agents]. unfold range.
    replace (Z.to_nat num_agents) with O by lia. reflexivity.
Qed.

Lemma construction_consumes_four_samples_each_witness :
  exists bf,
    run (Battlefield_init half_draws (-5)) 3 = inr (bf, 3%nat) /\
    agents bf = [].
Proof.
  destruct (construction_consumes_four_samples_each half_draws (-5) 3)
    as (bf & Hrun & _ & Hempty).
  exists bf. split; [exact Hrun | apply Hempty; lia].
Defined.

(** * Sessions and their dependence on the generator *)

Lemma agree_le {d1 c1 d2 c2 n} m :
  agree d1 c1 d2 c2 n -> (m <= n)%nat -> agree d1 c1 d2 c2 m.
Proof. intros H Hm k Hk. apply H. lia. Qed.

Lemma agree_shift {d1 c1 d2 c2 n} k m :
  agree d1 c1 d2 c2 n -> (k + m <= n)%nat ->
  agree d1 (k + c1) d2 (k + c2) m.
Proof.
  intros H Hkm j Hj. rewrite !Nat.add_assoc. apply H. lia.
Qed.

Lemma pair_at_agree {d1 c1 d2 c2} k lo hi :
  agree d1 c1 d2 c2 (k + 2) ->
  pair_at d1 lo hi (k + c1) = pair_at d2 lo hi (k + c2).
Proof.
  intros H. unfold pair_at.
  rewrite (H k) by lia.
  change (S (k + c1)) with (S k + c1)%nat.
  change (S (k + c2)) with (S k + c2)%nat.
  rewrite (H (S k)) by lia. reflexivity.
Qed.

Ltac rewrite_pair_at k lo hi H :=
  let E := fresh "E" in
  pose proof (pair_at_agree k lo hi H) as E;
  cbn [Nat.add] in E; rewrite E; clear E.

Lemma defensive_vector_agree {d1 c1 d2 c2} :
  agree d1 c1 d2 c2 4 -> defensive_vector d1 c1 = defensive_vector d2 c2.
Proof.
  intros H. unfold defensive_vector, defensive_direction.
  assert (H2 : agree d1 c1 d2 c2 (0 + 2)) by (apply (agree_le _ H); lia).
  rewrite_pair_at 0%nat (-1) 1 H2.
  rewrite_pair_at 2%nat (- chaos_factor / 2) (chaos_factor / 2) H.
  reflexivity.
Qed.

Lemma vector_of_agree {d1 c1 d2 c2} s self opponents :
  agree d1 c1 d2 c2 (policy_draws s) ->
  (opponents = [] -> s = maneuver) ->
  vector_of d1 s self opponents c1 = vector_of d2 s self opponents c2.
Proof.
  intros H Hempty. unfold vector_of.
  destruct opponents as [| first others].
  - rewrite (Hempty eq_refl) in H. now apply defensive_vector_agree.
  - destruct s; cbn [policy_draws] in H.
    + unfold attack_vector.
      rewrite_pair_at 0%nat (- chaos_factor) chaos_factor H. reflexivity.
    + now apply defensive_vector_agree.
    + unfold escape_vector.
      rewrite_pair_at 0%nat (- chaos_factor) chaos_factor H. reflexivity.
Qed.

(** What one turn returns, read off the cursor and the generator. *)
Lemma run_agent_step_cases draws tau all agent c :
  let foes := _detect_in_radius all agent 3.0 in
  (foes <> [] /\ power agent = 0 /\
   run (agent_step draws tau all agent) c = inl ZeroDivisionError) \/
  exists s,
    (foes = [] -> s = maneuver) /\
    (foes <> [] ->
     power agent <> 0 /\ s = stance_of tau (sum_power foes / power agent)) /\
    run (agent_step draws tau all agent) c =
      inr (after_turn draws agent s (vector_of draws s agent foes c)
                      (policy_draws s + c),
           S (S (policy_draws s + c))).
Proof.
  intros foes. rewrite run_agent_step_eq. fold foes.
  destruct foes as [| first others] eqn:Hfoes.
  - right. exists maneuver. rewrite run_decide_no_opponents.
    split; [reflexivity |]. split; [congruence | reflexivity].
  - destruct (Req_dec_T (power agent) 0) as [Hz | Hnz].
    + left. split; [discriminate |]. split; [exact Hz |].
      now rewrite run_decide_zero_power.
    + right. exists (stance_of tau (sum_power (first :: others) / power agent)).
      rewrite (run_decide_opponents_at draws tau agent first others c Hnz).
      cbv zeta. split; [discriminate |]. split; [| reflexivity].
      intros _. split; [exact Hnz | reflexivity].
Qed.

Lemma after_turn_agree {d1 c1 d2 c2} agent s v :
  agree d1 c1 d2 c2 (turn_draws s) ->
  after_turn d1 agent s v (policy_draws s + c1) =
  after_turn d2 agent s v (policy_draws s + c2).
Proof.
  intros H. unfold after_turn.
  now rewrite (pair_at_agree (policy_draws s) (-0.05) 0.05 H).
Qed.

Lemma turn_draws_le s : (policy_draws s <= turn_draws s <= 6)%nat.
Proof. destruct s; cbn; lia. Qed.

Lemma agent_step_agree {d1 c1 d2 c2} tau all agent :
  agree d1 c1 d2 c2 6 ->
  outcomes_agree 6 c1 c2
                 (run (agent_step d1 tau all agent) c1)
                 (run (agent_step d2 tau all agent) c2).
Proof.
  intros H.
  destruct (run_agent_step_cases d1 tau all agent c1)
    as [(Hfoes & Hz & ->) | (s1 & He1 & Hs1 & ->)];
    destruct (run_agent_step_cases d2 tau all agent c2)
    as [(Hfoes' & Hz' & ->) | (s2 & He2 & Hs2 & ->)]; cbn [outcomes_agree].
  - reflexivity.
  - destruct (Hs2 Hfoes) as [Hnz _]. contradiction.
  - destruct (Hs1 Hfoes') as [Hnz _]. contradiction.
  - assert (Hs : s1 = s2).
    { destruct (_detect_in_radius all agent 3.0) as [| first others].
      - rewrite He1, He2; reflexivity.
      - destruct Hs1 as [_ ->]; [discriminate |].
        destruct Hs2 as [_ ->]; [discriminate |]. reflexivity. }
    subst s2. pose proof (turn_draws_le s1) as Hle.
    rewrite (vector_of_agree s1 agent _
               (agree_le (policy_draws s1) H ltac:(lia)) He1).
    rewrite (after_turn_agree agent s1 _
               (agree_le (turn_draws s1) H ltac:(lia))).
    split; [reflexivity |]. exists (turn_draws s1).
    unfold turn_draws in *. repeat split; lia.
Qed.

Lemma agents_loop_agree tau todo :
  forall d1 c1 d2 c2 done,
    agree d1 c1 d2 c2 (6 * length todo) ->
    outcomes_agree (6 * length todo) c1 c2
                   (run (agents_loop d1 tau done todo) c1)
                   (run (agents_loop d2 tau done todo) c2).
Proof.
  induction todo as [| agent rest IH]; intros d1 c1 d2 c2 done H.
  - cbn [agents_loop]. rewrite !run_ret. cbn [outcomes_agree].
    split; [reflexivity |]. exists O. repeat split. cbn. lia.
  - rewrite !run_agents_loop_cons. cbn [length] in *.
    pose proof (agent_step_agree tau (done ++ agent :: rest) agent
                                 (agree_le 6 H ltac:(lia))) as Hstep.
    destruct (run (agent_step d1 tau (done ++ agent :: rest) agent) c1)
      as [e1 | [a1 c1']];
      destruct (run (agent_step d2 tau (done ++ agent :: rest) agent) c2)
      as [e2 | [a2 c2']]; cbn [outcomes_agree] in Hstep;
      try contradiction; [exact Hstep |].
    destruct Hstep as (<- & k & Hk & -> & ->).
    pose proof (IH d1 (k + c1)%nat d2 (k + c2)%nat (done ++ [a1])
                   (agree_shift k (6 * length rest) H ltac:(lia))) as Hrest.
    destruct (run (agents_loop d1 tau (done ++ [a1]) rest) (k + c1))
      as [e1 | [out1 c1'']];
      destruct (run (agents_loop d2 tau (done ++ [a1]) rest) (k + c2))
      as [e2 | [out2 c2'']]; cbn [outcomes_agree] in Hrest |- *;
      try contradiction; [exact Hrest |].
    destruct Hrest as (<- & k' & Hk' & -> & ->).
    split; [reflexivity |]. exists (k' + k)%nat. repeat split; lia.
Qed.

Lemma time_step_agree {d1 c1 d2 c2} tau bf :
  agree d1 c1 d2 c2 (6 * length (agents bf)) ->
  outcomes_agree (6 * length (agents bf)) c1 c2
                 (run (time_step d1 tau bf) c1) (run (time_step d2 tau bf) c2).
Proof.
  intros H. rewrite !run_time_step.
  pose proof (agents_loop_agree tau (agents bf) d1 c1 d2 c2 [] H) as Hloop.
  destruct (run (agents_loop d1 tau [] (agents bf)) c1) as [e1 | [m1 c1']];
    destruct (run (agents_loop d2 tau [] (agents bf)) c2) as [e2 | [m2 c2']];
    cbn [outcomes_agree] in Hloop |- *; try contradiction; [exact Hloop |].
  destruct Hloop as (<- & Hk). split; [reflexivity | exact Hk].
Qed.

Lemma play_frame draws later w :
  play draws (Frame :: later) w =
  match run (time_step draws (aggression_threshold w) (battlefield w))
            (np_random w) with
  | inl e => inl e
  | inr (bf, cursor) =>
      match play draws later (mkWorld cursor (aggression_threshold w) bf) with
      | inl e => inl e
      | inr (trajectory, final) => inr (bf :: trajectory, final)
      end
  end.
Proof.
  cbn [play]. unfold animate.
  destruct (run (time_step draws (aggression_threshold w) (battlefield w))
                (np_random w)) as [e | [bf cursor]]; reflexivity.
Qed.

Lemma play_inv draws events :
  forall w trajectory final,
    play draws events w = inr (trajectory, final) ->
    length trajectory = frames events /\
    successive draws (battlefield w) trajectory /\
    last trajectory (battlefield w) = battlefield final.
Proof.
  induction events as [| [| val] later IH]; intros w trajectory final Hplay.
  - cbn [play] in Hplay. inversion Hplay; subst.
    repeat split. constructor.
  - rewrite play_frame in Hplay.
    destruct (run (time_step draws (aggression_threshold w) (battlefield w))
                  (np_random w)) as [e | [bf cursor]] eqn:Hstep;
      [discriminate |].
    destruct (play draws later (mkWorld cursor (aggression_threshold w) bf))
      as [e | [rest final']] eqn:Hrest; [discriminate |].
    inversion Hplay; subst.
    destruct (IH _ _ _ Hrest) as (Hlen & Hsucc & Hlast).
    cbn [battlefield] in Hsucc, Hlast. cbn [length frames].
    split; [now rewrite Hlen |]. split.
    + econstructor; eassumption.
    + rewrite last_cons_default. exact Hlast.
  - cbn [play] in Hplay. destruct (IH _ _ _ Hplay) as (Hlen & Hsucc & Hlast).
    cbn [frames]. repeat split; assumption.
Qed.

Lemma play_agree events :
  forall d1 d2 w1 w2,
    battlefield w1 = battlefield w2 ->
    aggression_threshold w1 = aggression_threshold w2 ->
    agree d1 (np_random w1) d2 (np_random w2)
          (6 * length (agents (battlefield w1)) * frames events) ->
    match play d1 events w1, play d2 events w2 with
    | inl e1, inl e2 => e1 = e2
    | inr (t1, f1), inr (t2, f2) =>
        t1 = t2 /\
        battlefield f1 = battlefield f2 /\
        aggression_threshold f1 = aggression_threshold f2 /\
        exists k,
          (k <= 6 * length (agents (battlefield w1)) * frames events)%nat /\
          np_random f1 = (k + np_random w1)%nat /\
          np_random f2 = (k + np_random w2)%nat
    | _, _ => False
    end.
Proof.
  induction events as [| [| val] later IH]; intros d1 d2 w1 w2 Hbf Htau H.
  - cbn [play]. repeat split; try assumption. exists O. repeat split. lia.
  - rewrite !play_frame. rewrite <- Hbf, <- Htau. cbn [frames] in H.
    set (n := length (agents (battlefield w1))) in *.
    pose proof (@time_step_agree d1 (np_random w1) d2 (np_random w2)
                  (aggression_threshold w1) (battlefield w1)
                  (agree_le (6 * n) H ltac:(nia))) as Hstep.
    fold n in Hstep.
    destruct (run (time_step d1 (aggression_threshold w1) (battlefield w1))
                  (np_random w1)) as [e1 | [bf1 k1]] eqn:Hrun1;
      destruct (run (time_step d2 (aggression_threshold w1) (battlefield w1))
                    (np_random w2)) as [e2 | [bf2 k2]];
      cbn [outcomes_agree] in Hstep; try contradiction; [exact Hstep |].
    destruct Hstep as (<- & k & Hk & -> & ->).
    destruct (time_step_keeps_population_core Hrun1) as (_ & _ & Hlen).
    pose proof (IH d1 d2
                   (mkWorld (k + np_random w1) (aggression_threshold w1) bf1)
                   (mkWorld (k + np_random w2) (aggression_threshold w1) bf1)
                   eq_refl eq_refl) as Hrest.
    cbn [battlefield np_random aggression_threshold] in Hrest.
    rewrite Hlen in Hrest. fold n in Hrest.
    specialize (Hrest (agree_shift k (6 * n * frames later) H ltac:(nia))).
    destruct (play d1 later
                   (mkWorld (k + np_random w1) (aggression_threshold w1) bf1))
      as [e1 | [t1 f1]];
      destruct (play d2 later
                     (mkWorld (k + np_random w2) (aggression_threshold w1) bf1))
      as [e2 | [t2 f2]]; try contradiction; [exact Hrest |].
    destruct Hrest as (<- & Hf & Ht & k' & Hk' & Hc1 & Hc2).
    repeat split; try assumption.
    exists (k' + k)%nat. cbn [frames]. rewrite Nat.mul_succ_r.
    repeat split; lia.
  - cbn [play frames] in *.
    apply (IH d1 d2 (update_threshold val w1) (update_threshold val w2));
      cbn [update_threshold battlefield aggression_threshold np_random];
      [exact Hbf | reflexivity | exact H].
Qed.

Lemma play_returns draws events :
  forall w,
    Forall (fun a => power a <> 0) (agents (battlefield w)) ->
    exists trajectory final, play draws events w = inr (trajectory, final).
Proof.
  induction events as [| [| val] later IH]; intros w Hnz.
  - exists [], w. reflexivity.
  - destruct (time_step_returns draws (aggression_threshold w) (battlefield w)
                                (np_random w) Hnz) as (bf & cursor & Hstep).
    pose proof (time_step_invariant _ _ _ _ _ _ Hstep) as Hinv.
    destruct (IH (mkWorld cursor (aggression_threshold w) bf)
                 (invariant_nonzero _ Hinv)) as (rest & final & Hrest).
    exists (bf :: rest), final. rewrite play_frame, Hstep, Hrest. reflexivity.
  - apply (IH (update_threshold val w)). exact Hnz.
Qed.

(** C9. Two sessions produce the same trajectory when they start from the
    same battlefield and the same threshold, see the same events (frames
    and slider moves) in the same order, and their generators deliver the
    same samples over the stretch the session can reach: six per agent per
    frame, counted from each generator's own position.  The generators may
    differ in everything else, in what they delivered before and in what
    they deliver later, and may stand at different positions.  Then either
    both sessions stop with the same exception, or both return; the
    trajectories (the battlefield after each frame, with every agent's
    position, power, stance and vector and the tick count) are equal, hold
    one battlefield per frame, each the result of [time_step] on the one
    before; the final battlefields and thresholds are equal, and both
    sessions have consumed the same number of samples. *)
Theorem seeded_sessions_agree d1 d2 events w1 w2 :
  battlefield w1 = battlefield w2 ->
  aggression_threshold w1 = aggression_threshold w2 ->
  agree d1 (np_random w1) d2 (np_random w2)
        (6 * length (agents (battlefield w1)) * frames events) ->
  match play d1 events w1, play d2 events w2 with
  | inl e1, inl e2 => e1 = e2
  | inr (t1, f1), inr (t2, f2) =>
      t1 = t2 /\
      length t1 = frames events /\
      successive d1 (battlefield w1) t1 /\
      last t1 (battlefield w1) = battlefield f1 /\
      battlefield f1 = battlefield f2 /\
      aggression_threshold f1 = aggression_threshold f2 /\
      exists k,
        (k <= 6 * length (agents (battlefield w1)) * frames events)%nat /\
        np_random f1 = (k + np_random w1)%nat /\
        np_random f2 = (k + np_random w2)%nat
  | _, _ => False
  end.
Proof.
  intros Hbf Htau H.
  pose proof (play_agree events d1 d2 w1 w2 Hbf Htau H) as Hagree.
  destruct (play d1 events w1) as [e1 | [t1 f1]] eqn:Hplay1;
    destruct (play d2 events w2) as [e2 | [t2 f2]];
    try contradiction; [exact Hagree |].
  destruct Hagree as (Ht & Hf & Hthr & Hk).
  destruct (play_inv _ _ _ _ _ Hplay1) as (Hlen & Hsucc & Hlast).
  repeat split; assumption.
Qed.

Lemma seeded_sessions_agree_witness :
  exists trajectory f1 f2,
    play half_draws [Frame; Slide 1.5; Frame] scenario_world =
      inr (trajectory, f1) /\
    play used_generator [Frame; Slide 1.5; Frame] scenario_world_later =
      inr (trajectory, f2) /\
    length trajectory = 2%nat /\
    battlefield f1 = battlefield f2.
Proof.
  pose proof (seeded_sessions_agree
                half_draws used_generator [Frame; Slide 1.5; Frame]
                scenario_world scenario_world_later eq_refl eq_refl) as H.
  destruct (play_returns half_draws [Frame; Slide 1.5; Frame] scenario_world
                         scenario_nonzero) as (t1 & f1 & Hplay1).
  destruct (play_returns used_generator [Frame; Slide 1.5; Frame]
                         scenario_world_later scenario_nonzero)
    as (t2 & f2 & Hplay2).
  rewrite Hplay1, Hplay2 in H.
  destruct H as (Ht & Hlen & _ & _ & Hf & _).
  - intros k Hk. cbn in Hk. unfold half_draws, used_generator.
    cbn [np_random scenario_world scenario_world_later].
    destruct (Nat.ltb_spec (k + 10) 10); [lia |].
    destruct (Nat.ltb_spec (k + 10) 34); [reflexivity | lia].
  - exists t1, f1, f2. subst t2. repeat split; assumption.
Defined.

(** The hypotheses matter: the stance of the first agent after a frame is
    read off the threshold in force, so two sessions that differ only in
    the threshold part ways. *)
Lemma first_agent_stance {draws tau a rest count c bf' c'} :
  run (time_step draws tau (mkBattlefield (a :: rest) count)) c = inr (bf', c') ->
  _detect_in_radius (a :: rest) a 3.0 <> [] ->
  exists a' rest',
    agents bf' = a' :: rest' /\
    status a' =
      stance_of tau (sum_power (_detect_in_radius (a :: rest) a 3.0) / power a).
Proof.
  intros Hrun Hfoes. destruct (time_step_inv Hrun) as (mid & Htrace & ->).
  cbn [agents] in *. inversion Htrace as [| ? ? ? ? s v c1 new ? Hd _]; subst.
  cbn [app] in Hd. destruct (decide_inv Hd) as (_ & _ & _ & Hcase).
  destruct (_detect_in_radius (a :: rest) a 3.0) as [| first others];
    [congruence |].
  destruct Hcase as [_ Hs].
  destruct (rebalance_keeps (after_turn draws a s v c1 :: new))
    as (_ & _ & _ & Hstatus & _).
  destruct (_rebalance_strategic_equilibrium (after_turn draws a s v c1 :: new))
    as [| a' rest']; cbn [map] in Hstatus; [discriminate |].
  cbn [map] in Hstatus. injection Hstatus as Ha' _.
  exists a', rest'. split; [reflexivity |].
  rewrite Ha'. exact Hs.
Qed.

Lemma scenario_detection :
  _detect_in_radius (agents scenario) agent_A 3.0 = [agent_B].
Proof.
  assert (HB : linalg_norm (vsub (position agent_B) (position agent_A)) = 1).
  { unfold linalg_norm, vsub. cbn [position agent_A agent_B fst snd].
    replace ((1 - 0) * (1 - 0) + (0 - 0) * (0 - 0)) with 1 by lra.
    apply sqrt_1. }
  cbn [agents scenario _detect_in_radius]. rewrite HB.
  cbn [agent_id agent_A agent_B Z.eqb Pos.eqb negb].
  compare_reals. reflexivity.
Qed.

Example the_threshold_changes_the_trajectory :
  exists t1 f1 t2 f2,
    play half_draws [Frame] (mkWorld 0 1.0 scenario) = inr (t1, f1) /\
    play half_draws [Frame] (mkWorld 0 0.1 scenario) = inr (t2, f2) /\
    t1 <> t2.
Proof.
  destruct (time_step_returns half_draws 1.0 scenario 0 scenario_nonzero)
    as (bf1 & c1 & Hrun1).
  destruct (time_step_returns half_draws 0.1 scenario 0 scenario_nonzero)
    as (bf2 & c2 & Hrun2).
  exists [bf1], (mkWorld c1 1.0 bf1), [bf2], (mkWorld c2 0.1 bf2).
  split; [rewrite play_frame; cbn [aggression_threshold battlefield np_random];
          rewrite Hrun1; reflexivity |].
  split; [rewrite play_frame; cbn [aggression_threshold battlefield np_random];
          rewrite Hrun2; reflexivity |].
  assert (Hfoes : _detect_in_radius (agent_A :: [agent_B]) agent_A 3.0 <> [])
    by (rewrite (scenario_detection : _detect_in_radius [agent_A; agent_B] _ _ = _);
        discriminate).
  destruct (first_agent_stance Hrun1 Hfoes) as (a1 & r1 & Hag1 & Hs1).
  destruct (first_agent_stance Hrun2 Hfoes) as (a2 & r2 & Hag2 & Hs2).
  rewrite (scenario_detection : _detect_in_radius [agent_A; agent_B] _ _ = _)
    in Hs1, Hs2.
  assert (H1 : status a1 = attack).
  { rewrite Hs1. unfold stance_of, sum_power.
    cbn [map fold_left power agent_A agent_B]. compare_reals. reflexivity. }
  assert (H2 : status a2 = retreat).
  { rewrite Hs2. unfold stance_of, sum_power.
    cbn [map fold_left power agent_A agent_B]. compare_reals. reflexivity. }
  intros Heq. inversion Heq as [Hbf]. rewrite Hbf in Hag1.
  rewrite Hag1 in Hag2. inversion Hag2. congruence.
Qed.

(** * Properties of the contradiction dynamics *)

Module MaodunFacts.
Import Maodun.

Lemma same_endpoints_true_iff u v e :
  same_endpoints u v e = true <-> endpoints e = (u, v).
Proof.
  unfold same_endpoints. destruct (endpoints e) as [u' v']. cbn [fst snd].
  rewrite andb_true_iff, !String.eqb_eq. split.
  - intros [-> ->]. reflexivity.
  - intros H. inversion H. auto.
Qed.

Lemma set_data_at pre rest u v r0 r :
  ~ In (u, v) (map endpoints pre) ->
  set_data (pre ++ (u, v, r0) :: rest) u v r = Some (pre ++ (u, v, r) :: rest).
Proof.
  induction pre as [| e pre IH]; intros Hfresh; cbn [app set_data].
  - rewrite (proj2 (same_endpoints_true_iff u v (u, v, r0)) eq_refl).
    reflexivity.
  - cbn [map In] in Hfresh.
    destruct (same_endpoints u v e) eqn:Hsame.
    + apply same_endpoints_true_iff in Hsame. tauto.
    + rewrite IH by tauto. reflexivity.
Qed.

Lemma endpoints_updated self g :
  map endpoints (map (updated_edge self) g) = map endpoints g.
Proof. rewrite map_map. reflexivity. Qed.

Lemma assign_updates self todo :
  forall done,
    simple (done ++ todo) ->
    fold_left (fun g upd =>
                 match g with
                 | None => None
                 | Some g => set_data g (fst (fst upd)) (snd (fst upd)) (snd upd)
                 end)
              (map (updated_edge self) todo)
              (Some (map (updated_edge self) done ++ todo)) =
    Some (map (updated_edge self) (done ++ todo)).
Proof.
  unfold simple. induction todo as [| e todo IH]; intros done Hsimple.
  - cbn [map fold_left]. rewrite !app_nil_r. reflexivity.
  - destruct e as [[u v] r0]. cbn [map fold_left].
    change (updated_edge self (u, v, r0)) with (u, v, new_relation self r0).
    cbn [fst snd].
    rewrite set_data_at.
    + replace (map (updated_edge self) done ++
               (u, v, new_relation self r0) :: todo)
        with (map (updated_edge self) (done ++ [(u, v, r0)]) ++ todo)
        by (rewrite map_app, <- app_assoc; reflexivity).
      rewrite IH; rewrite <- app_assoc; [reflexivity | exact Hsimple].
    + rewrite endpoints_updated. rewrite map_app in Hsimple.
      apply NoDup_remove_2 in Hsimple. intros Hin. apply Hsimple.
      apply in_or_app. now left.
Qed.

Lemma update_relations_simple self :
  simple (graph (system self)) ->
  update_relations self =
  Some (mkEngine (mkSystem (map (updated_edge self) (graph (system self))))
                 (chaos_coeff self)).
Proof.
  intros Hsimple. unfold update_relations. cbv zeta.
  pose proof (assign_updates self (graph (system self)) [] Hsimple) as H.
  cbn [map app] in H. rewrite H. reflexivity.
Qed.

(** X17. On a graph with one edge per ordered pair, [update_relations]
    never meets a missing edge, and assigning the collected updates one by
    one amounts to replacing every relation by its successor: the edges keep
    their endpoints and their order, and each new relation is computed from
    the old relation of the same edge alone. *)
Theorem update_is_pointwise self :
  simple (graph (system self)) ->
  exists self',
    update_relations self = Some self' /\
    chaos_coeff self' = chaos_coeff self /\
    graph (system self') = map (updated_edge self) (graph (system self)) /\
    map endpoints (graph (system self')) = map endpoints (graph (system self)) /\
    simple (graph (system self')).
Proof.
  intros Hsimple. eexists. split; [now apply update_relations_simple |].
  cbn [chaos_coeff system graph]. unfold simple.
  rewrite endpoints_updated. auto.
Qed.

Lemma example_simple : simple (graph (system example_engine)).
Proof.
  unfold simple. cbn.
  repeat constructor; cbn; intuition congruence.
Qed.

Lemma update_is_pointwise_witness :
  exists self',
    update_relations example_engine = Some self' /\
    map endpoints (graph (system self')) = map endpoints example_graph.
Proof.
  destruct (update_is_pointwise example_engine example_simple)
    as (self' & Hrun & _ & _ & Hends & _).
  exists self'. split; assumption.
Defined.

(** ** Repeated updates *)

Lemma new_relation_coeff s1 s2 r :
  chaos_coeff s1 = chaos_coeff s2 -> new_relation s1 r = new_relation s2 r.
Proof.
  intros H. unfold new_relation, logistic_map. rewrite H. reflexivity.
Qed.

Lemma new_relation_n_coeff n :
  forall s1 s2 r,
    chaos_coeff s1 = chaos_coeff s2 ->
    new_relation_n n s1 r = new_relation_n n s2 r.
Proof.
  induction n as [| n IH]; intros s1 s2 r H; cbn [new_relation_n];
    [reflexivity |].
  rewrite (new_relation_coeff s1 s2 r H). now apply IH.
Qed.

Lemma new_relation_n_last n :
  forall self r,
    new_relation_n (S n) self r = new_relation self (new_relation_n n self r).
Proof.
  induction n as [| n IH]; intros self r; [reflexivity |].
  change (new_relation_n (S (S n)) self r)
    with (new_relation_n (S n) self (new_relation self r)).
  rewrite IH. reflexivity.
Qed.

Lemma update_relations_n_simple n :
  forall self,
    simple (graph (system self)) ->
    update_relations_n n self =
    Some (mkEngine
            (mkSystem (map (fun e => (endpoints e, new_relation_n n self (data e)))
                           (graph (system self))))
            (chaos_coeff self)).
Proof.
  induction n as [| n IH]; intros self Hsimple.
  - cbn [update_relations_n new_relation_n]. destruct self as [[g] k].
    cbn [system graph chaos_coeff]. do 3 f_equal.
    rewrite <- (map_id g) at 1. apply map_ext. intros [ends r]. reflexivity.
  - cbn [update_relations_n]. rewrite (update_relations_simple self Hsimple).
    rewrite IH; cbn [system graph chaos_coeff];
      [| unfold simple; rewrite endpoints_updated; exact Hsimple].
    do 3 f_equal. rewrite map_map. apply map_ext. intros e.
    unfold updated_edge. cbn [endpoints data fst snd new_relation_n].
    f_equal. now apply new_relation_n_coeff.
Qed.

Lemma Forall2_map_self {A B : Type} (P : A -> B -> Prop) (f : A -> B) l :
  (forall x, P x (f x)) -> Forall2 P l (map f l).
Proof. intros H. induction l; cbn [map]; constructor; auto. Qed.

Lemma new_relation_normal self r :
  0 <= intensity (new_relation self r) <= 1 /\
  (active (new_relation self r) = true <-> 0.1 < intensity (new_relation self r)).
Proof.
  unfold new_relation. cbn [intensity active]. split.
  - unfold Rmax, Rmin. repeat destruct (Rle_dec _ _); lra.
  - apply Rltb_true_iff.
Qed.

(** X18. After one or more updates of a graph with one edge per ordered
    pair, every relation has an intensity in [0,1] and is marked active
    exactly when its intensity exceeds 0.1, whatever the intensities and
    flags were before and whatever the chaos coefficient is. *)
Theorem updated_relations_are_normal self n :
  simple (graph (system self)) ->
  exists self',
    update_relations_n (S n) self = Some self' /\
    Forall (fun e => 0 <= intensity (data e) <= 1 /\
                     (active (data e) = true <-> 0.1 < intensity (data e)))
           (graph (system self')).
Proof.
  intros Hsimple. eexists. split; [now apply update_relations_n_simple |].
  cbn [system graph]. apply Forall_map. apply Forall_forall. intros e _.
  cbn [data snd]. rewrite new_relation_n_last. apply new_relation_normal.
Qed.

Lemma updated_relations_are_normal_witness :
  exists self',
    update_relations_n 3 example_engine = Some self' /\
    Forall (fun e => 0 <= intensity (data e) <= 1 /\
                     (active (data e) = true <-> 0.1 < intensity (data e)))
           (graph (system self')).
Proof. exact (updated_relations_are_normal example_engine 2 example_simple). Defined.

Lemma new_relation_type self r :
  type (new_relation self r) = type r \/
  (type r = ANTAGONISM /\ type (new_relation self r) = DEPENDENCE).
Proof.
  unfold new_relation. cbn [type].
  destruct (type r); cbn [is_antagonism andb]; auto.
  destruct (Rltb 0.9 _); auto.
Qed.

Lemma new_relation_n_type n :
  forall self r,
    type (new_relation_n n self r) = type r \/
    (type r = ANTAGONISM /\ type (new_relation_n n self r) = DEPENDENCE).
Proof.
  induction n as [| n IH]; intros self r; [now left |].
  rewrite new_relation_n_last.
  destruct (new_relation_type self (new_relation_n n self r)) as [H | [H1 H2]];
    destruct (IH self r) as [H' | [H1' H2']]; try (left; congruence);
    try (right; split; congruence).
Qed.

(** X19. Types move in one direction only.  After any number of updates an
    edge has the type it started with, unless it started as ANTAGONISM and
    has become DEPENDENCE; so a DEPENDENCE or TRANSFORMATION edge keeps its
    type for ever and no edge ever becomes ANTAGONISM or TRANSFORMATION. *)
Theorem types_only_turn_into_dependence self n :
  simple (graph (system self)) ->
  exists self',
    update_relations_n n self = Some self' /\
    Forall2 (fun before after =>
               endpoints after = endpoints before /\
               (type (data after) = type (data before) \/
                (type (data before) = ANTAGONISM /\
                 type (data after) = DEPENDENCE)))
            (graph (system self)) (graph (system self')).
Proof.
  intros Hsimple. eexists. split; [now apply update_relations_n_simple |].
  cbn [system graph]. apply Forall2_map_self. intros e.
  split; [reflexivity |]. apply new_relation_n_type.
Qed.

Lemma types_only_turn_into_dependence_witness :
  exists self',
    update_relations_n 5 example_engine = Some self' /\
    Forall2 (fun before after =>
               endpoints after = endpoints before /\
               (type (data after) = type (data before) \/
                (type (data before) = ANTAGONISM /\
                 type (data after) = DEPENDENCE)))
            example_graph (graph (system self')).
Proof. exact (types_only_turn_into_dependence example_engine 5 example_simple). Defined.

(** ** The logistic map and the clamp *)

Lemma logistic_unit k x :
  0 <= k <= 4 -> 0 <= x <= 1 -> 0 <= k * x * (1 - x) <= k / 4 /\ k / 4 <= 1.
Proof.
  intros Hk Hx.
  assert (Hq0 : 0 <= x * (1 - x)) by (apply Rmult_le_pos; lra).
  assert (Hsq : 0 <= (x - 1 / 2) * (x - 1 / 2)) by apply Rle_0_sqr.
  assert (Hq1 : x * (1 - x) <= 1 / 4) by lra.
  replace (k * x * (1 - x)) with (k * (x * (1 - x))) by ring.
  set (q := x * (1 - x)) in *.
  repeat split; nra.
Qed.

Lemma new_relation_unclamped self r :
  0 <= chaos_coeff self <= 4 ->
  0 <= intensity r <= 1 ->
  intensity (new_relation self r) = logistic_map self (intensity r).
Proof.
  intros Hk Hx. unfold new_relation, logistic_map. cbn [intensity].
  destruct (logistic_unit _ _ Hk Hx) as [H1 H2].
  unfold Rmax, Rmin. repeat destruct (Rle_dec _ _); lra.
Qed.

Lemma intensity_orbit_unit self n :
  0 <= chaos_coeff self <= 4 ->
  forall r,
    0 <= intensity r <= 1 ->
    intensity (new_relation_n n self r) = logistic_orbit n self (intensity r) /\
    0 <= intensity (new_relation_n n self r) <= 1.
Proof.
  intros Hk. induction n as [| n IH]; intros r Hx.
  - cbn [new_relation_n logistic_orbit]. split; [reflexivity | exact Hx].
  - pose proof (new_relation_unclamped self r Hk Hx) as Hstep.
    destruct (logistic_unit _ _ Hk Hx) as [H1 H2].
    assert (Hx' : 0 <= intensity (new_relation self r) <= 1)
      by (rewrite Hstep; unfold logistic_map; lra).
    destruct (IH (new_relation self r) Hx') as [Horbit Hunit].
    cbn [new_relation_n logistic_orbit]. rewrite Horbit, Hstep.
    split; [reflexivity |]. rewrite <- Hstep, <- Horbit. exact Hunit.
Qed.

(** X20. For a chaos coefficient between 0 and 4 (3.7 by default) the
    clamp never acts on an intensity that starts in [0,1]: after any number
    of updates the intensity is the plain logistic orbit of the initial
    one, and from the first update on it is at most a quarter of the
    coefficient. *)
Theorem intensity_follows_logistic_orbit self r n :
  0 <= chaos_coeff self <= 4 ->
  0 <= intensity r <= 1 ->
  intensity (new_relation_n n self r) = logistic_orbit n self (intensity r) /\
  0 <= intensity (new_relation_n n self r) <= 1 /\
  intensity (new_relation_n (S n) self r) <= chaos_coeff self / 4.
Proof.
  intros Hk Hx.
  destruct (intensity_orbit_unit self n Hk r Hx) as [Horbit Hunit].
  split; [exact Horbit |]. split; [exact Hunit |].
  rewrite new_relation_n_last, new_relation_unclamped by assumption.
  unfold logistic_map. apply (logistic_unit (chaos_coeff self)); assumption.
Qed.

Lemma intensity_follows_logistic_orbit_witness :
  intensity (new_relation_n 2 example_engine (mkRelation 0.5 ANTAGONISM true)) =
    3.7 * (3.7 * 0.5 * (1 - 0.5)) * (1 - 3.7 * 0.5 * (1 - 0.5)) /\
  intensity (new_relation_n 3 example_engine (mkRelation 0.5 ANTAGONISM true))
    <= 3.7 / 4.
Proof.
  destruct (intensity_follows_logistic_orbit
              example_engine (mkRelation 0.5 ANTAGONISM true) 2)
    as (Horbit & _ & Hbound).
  - cbn. lra.
  - cbn. lra.
  - split; [exact Horbit | exact Hbound].
Defined.

(** X21. A relation whose intensity is 0 or less, or 1 or more, is spent:
    with a non-negative chaos coefficient its intensity is 0 and it is
    inactive after the next update and after every later one. *)
Theorem spent_relations_stay_spent self r n :
  0 <= chaos_coeff self ->
  intensity r <= 0 \/ 1 <= intensity r ->
  intensity (new_relation_n (S n) self r) = 0 /\
  active (new_relation_n (S n) self r) = false.
Proof.
  intros Hk. revert r.
  assert (Hone : forall r, intensity r <= 0 \/ 1 <= intensity r ->
                           intensity (new_relation self r) = 0 /\
                           active (new_relation self r) = false).
  { intros r Hx. unfold new_relation, logistic_map. cbn [intensity active].
    assert (Hq : intensity r * (1 - intensity r) <= 0) by (destruct Hx; nra).
    assert (Hneg : chaos_coeff self * intensity r * (1 - intensity r) <= 0).
    { replace (chaos_coeff self * intensity r * (1 - intensity r))
        with (chaos_coeff self * (intensity r * (1 - intensity r))) by ring.
      set (q := intensity r * (1 - intensity r)) in *. nra. }
    assert (Hz : Rmax 0.0 (Rmin (chaos_coeff self * intensity r *
                                 (1 - intensity r)) 1.0) = 0).
    { unfold Rmax, Rmin. repeat destruct (Rle_dec _ _); lra. }
    rewrite Hz. split; [reflexivity |]. apply Rltb_false_iff. lra. }
  induction n as [| n IH]; intros r Hx.
  - apply Hone. exact Hx.
  - change (new_relation_n (S (S n)) self r)
      with (new_relation_n (S n) self (new_relation self r)).
    apply IH. left. destruct (Hone r Hx) as [H _]. lra.
Qed.

Lemma spent_relations_stay_spent_witness :
  intensity (new_relation_n 4 example_engine (mkRelation 1.0 TRANSFORMATION true)) = 0 /\
  active (new_relation_n 4 example_engine (mkRelation 1.0 TRANSFORMATION true)) = false.
Proof.
  apply (spent_relations_stay_spent example_engine
           (mkRelation 1.0 TRANSFORMATION true) 3).
  - cbn. lra.
  - right. cbn. lra.
Defined.

(** ** The percentile and the focus *)

Lemma insert_sorted_In x l y : In y (insert_sorted x l) <-> y = x \/ In y l.
Proof.
  induction l as [| z l IH]; cbn [insert_sorted In].
  - intuition.
  - destruct (Rleb x z); cbn [In]; rewrite ?IH; intuition.
Qed.

Lemma sort_In l y : In y (sort l) <-> In y l.
Proof.
  induction l as [| x l IH]; cbn [sort fold_right In]; [reflexivity |].
  fold (sort l). rewrite insert_sorted_In, IH. intuition.
Qed.

Lemma insert_sorted_length x l :
  List.length (insert_sorted x l) = S (List.length l).
Proof.
  induction l as [| z l IH]; cbn [insert_sorted List.length]; [reflexivity |].
  destruct (Rleb x z); cbn [List.length]; [reflexivity | now rewrite IH].
Qed.

Lemma sort_length l : List.length (sort l) = List.length l.
Proof.
  induction l as [| x l IH]; cbn [sort fold_right List.length]; [reflexivity |].
  fold (sort l). now rewrite insert_sorted_length, IH.
Qed.

Lemma gamma_unit k : 0 <= INR (k mod 100) / 100 < 1.
Proof.
  assert (H : (k mod 100 < 100)%nat) by (apply Nat.mod_upper_bound; lia).
  apply lt_INR in H. pose proof (pos_INR (k mod 100)) as Hpos.
  replace (INR 100) with 100 in H by (rewrite INR_IZR_INZ; reflexivity).
  lra.
Qed.

(** The percentile of a non-empty list lies between two of its entries. *)
Lemma percentile_between a q :
  a <> [] -> (q <= 100)%nat ->
  exists low high,
    In low a /\ In high a /\ low <= percentile a q <= high.
Proof.
  intros Hne Hq. unfold percentile. cbv zeta.
  set (n := List.length a).
  assert (Hn : (0 < n)%nat) by (destruct a; [congruence | cbn; lia]).
  set (scaled := (q * (n - 1))%nat).
  assert (Hprev : (scaled / 100 < n)%nat).
  { apply Nat.le_lt_trans with (n - 1)%nat; [| lia].
    apply Nat.Div0.div_le_upper_bound. unfold scaled. nia. }
  assert (Hnext : (Nat.min (scaled / 100 + 1) (n - 1) < n)%nat) by lia.
  pose proof (gamma_unit scaled) as Hg.
  set (gamma := INR (scaled mod 100) / 100) in *.
  assert (Hp : In (nth (scaled / 100) (sort a) 0) a).
  { apply sort_In, nth_In. rewrite sort_length. exact Hprev. }
  assert (Hx : In (nth (Nat.min (scaled / 100 + 1) (n - 1)) (sort a) 0) a).
  { apply sort_In, nth_In. rewrite sort_length. exact Hnext. }
  set (p := nth (scaled / 100) (sort a) 0) in *.
  set (x := nth (Nat.min (scaled / 100 + 1) (n - 1)) (sort a) 0) in *.
  destruct (Rle_dec p x) as [Hle | Hgt].
  - exists p, x. repeat split; try assumption; nra.
  - exists x, p. repeat split; try assumption; nra.
Qed.

Lemma strongest_exists (g : list Edge) :
  g <> [] ->
  exists e, In e g /\
            forall e', In e' g -> intensity (data e') <= intensity (data e).
Proof.
  induction g as [| e g IH]; [congruence |]. intros _.
  destruct g as [| e1 g].
  - exists e. split; [now left |]. intros e' [<- | []]. lra.
  - destruct IH as (m & Hm & Hmax); [discriminate |].
    destruct (Rle_dec (intensity (data m)) (intensity (data e))) as [Hle | Hgt].
    + exists e. split; [now left |].
      intros e' [<- | Hin]; [lra |]. specialize (Hmax e' Hin). lra.
    + exists m. split; [now right |].
      intros e' [<- | Hin]; [lra | now apply Hmax].
Qed.

Lemma focus_nonempty_graph self e g :
  graph (system self) = e :: g ->
  focus_main_contradictions self =
  map endpoints
      (filter (fun e' =>
                 Rleb (percentile
                         (map (fun e => intensity (data e)) (graph (system self)))
                         97)
                      (intensity (data e')))
              (graph (system self))).
Proof.
  intros H. unfold focus_main_contradictions. rewrite H. reflexivity.
Qed.

Lemma focus_strongest self e :
  In e (graph (system self)) ->
  (forall e', In e' (graph (system self)) ->
              intensity (data e') <= intensity (data e)) ->
  In (endpoints e) (focus_main_contradictions self).
Proof.
  intros Hin Hmax.
  destruct (graph (system self)) as [| e0 g] eqn:Hg; [destruct Hin |].
  rewrite (focus_nonempty_graph self e0 g Hg), Hg.
  apply in_map, filter_In. split; [exact Hin |].
  apply Rleb_true_iff.
  destruct (percentile_between
              (map (fun e => intensity (data e)) (e0 :: g)) 97)
    as (low & high & _ & Hhigh & Hp); [discriminate | lia |].
  apply in_map_iff in Hhigh. destruct Hhigh as (eh & <- & Heh).
  specialize (Hmax eh Heh). lra.
Qed.

Lemma focus_facts self :
  (graph (system self) = [] -> focus_main_contradictions self = []) /\
  incl (focus_main_contradictions self) (map endpoints (graph (system self))) /\
  (forall e,
      In e (graph (system self)) ->
      (forall e', In e' (graph (system self)) ->
                  intensity (data e') <= intensity (data e)) ->
      In (endpoints e) (focus_main_contradictions self)) /\
  (graph (system self) <> [] -> focus_main_contradictions self <> []).
Proof.
  split; [| split; [| split]].
  - intros H. unfold focus_main_contradictions. rewrite H. reflexivity.
  - destruct (graph (system self)) as [| e0 g] eqn:Hg.
    + unfold focus_main_contradictions. rewrite Hg. intros x [].
    + rewrite (focus_nonempty_graph self e0 g Hg), Hg.
      intros x Hx. apply in_map_iff in Hx. destruct Hx as (e & <- & He).
      apply filter_In in He. apply in_map. tauto.
  - apply focus_strongest.
  - intros Hne. destruct (strongest_exists _ Hne) as (e & Hin & Hmax).
    pose proof (focus_strongest self e Hin Hmax) as H.
    intros Hnil. rewrite Hnil in H. destruct H.
Qed.

(** X22. The focus is never empty on a graph with edges: every edge whose
    intensity is the largest in the graph passes the 97th-percentile
    threshold.  It only returns edges of the graph, and on a graph without
    edges it returns the empty list. *)
Theorem focus_keeps_the_strongest self :
  (graph (system self) = [] -> focus_main_contradictions self = []) /\
  incl (focus_main_contradictions self) (map endpoints (graph (system self))) /\
  (forall e,
      In e (graph (system self)) ->
      (forall e', In e' (graph (system self)) ->
                  intensity (data e') <= intensity (data e)) ->
      In (endpoints e) (focus_main_contradictions self)) /\
  (graph (system self) <> [] -> focus_main_contradictions self <> []).
Proof. apply focus_facts. Qed.

Lemma focus_keeps_the_strongest_witness :
  In example_strongest (focus_main_contradictions example_engine) /\
  focus_main_contradictions example_engine <> [].
Proof.
  destruct (focus_keeps_the_strongest example_engine) as (_ & _ & Hin & Hne).
  split.
  - apply (Hin (example_strongest, mkRelation 1.0 TRANSFORMATION true)).
    + right. left. reflexivity.
    + intros e' [<- | [<- | [<- | []]]]; cbn; lra.
  - apply Hne. discriminate.
Defined.

(** X23. A tick on a graph with one edge per ordered pair never fails; it
    returns the updated engine and the focus computed on the updated
    intensities, which names only edges of the graph and is non-empty
    whenever the graph has an edge. *)
Theorem tick_updates_then_focuses self :
  simple (graph (system self)) ->
  exists self' focused,
    tick self = Some (self', focused) /\
    graph (system self') = map (updated_edge self) (graph (system self)) /\
    focused = focus_main_contradictions self' /\
    incl focused (map endpoints (graph (system self))) /\
    (graph (system self) <> [] -> focused <> []).
Proof.
  intros Hsimple. unfold tick. rewrite (update_relations_simple self Hsimple).
  eexists _, _. split; [reflexivity |]. cbn [system graph].
  split; [reflexivity |]. split; [reflexivity |].
  set (self' := mkEngine (mkSystem (map (updated_edge self) (graph (system self))))
                         (chaos_coeff self)).
  destruct (focus_facts self') as (_ & Hincl & Hin & Hne).
  cbn [self' system graph] in Hincl, Hne. rewrite endpoints_updated in Hincl.
  split; [exact Hincl |]. intros Hg. apply Hne.
  destruct (graph (system self)); [congruence | discriminate].
Qed.

Lemma tick_updates_then_focuses_witness :
  exists self' focused,
    tick example_engine = Some (self', focused) /\ focused <> [].
Proof.
  destruct (tick_updates_then_focuses example_engine example_simple)
    as (self' & focused & Hrun & _ & _ & _ & Hne).
  exists self', focused. split; [exact Hrun |]. apply Hne. discriminate.
Defined.

End MaodunFacts.
